(** * grpc-socks client relay: a shallow embedding of [client/proxy.go]

    The SOCKS5 front-end tunnels TCP CONNECT and UDP ASSOCIATE traffic over
    one bidirectional RPC stream per client connection.  The handlers are
    effectful Go code; here every call into the outside world (socket,
    stream, pool, logger) becomes an [event] of a trace, and every value the
    outside world hands back (bytes read, errors, arrival times) is taken
    from an explicit environment record.  Goroutines that share no memory
    are embedded as separate functions over their own part of the
    environment; the per-datagram goroutines of the UDP path do share
    memory, so they are embedded as a step function driven by a schedule. *)

From Stdlib Require Import ZArith String Ascii Bool Arith Lia List.
From Stdlib Require Import Strings.Byte.
From Stdlib Require Import DecimalString HexadecimalString.
Import ListNotations.

#[local] Open Scope string_scope.
#[local] Open Scope list_scope.
#[local] Open Scope nat_scope.

(** ** Bytes, slices and errors *)

Definition bytes : Type := list byte.

(** [[]byte(s)] for a Go string. *)
Definition bytes_of_string (s : string) : bytes := list_byte_of_string s.

(** [b[:n]]: Go panics when [n] exceeds the capacity, which is the length
    for every slice taken here. *)
Definition slice_to (b : bytes) (n : nat) : option bytes :=
  if n <=? length b then Some (firstn n b) else None.

(** [b[lo:hi]], with Go's bound checks [lo <= hi <= len b]. *)
Definition slice (b : bytes) (lo hi : nat) : option bytes :=
  if (lo <=? hi) && (hi <=? length b)
  then Some (firstn (hi - lo) (skipn lo b))
  else None.

(** What a [Read]/[ReadFrom] into [buff] leaves in the backing array when the
    peer delivered [data]: the first [length data] cells are overwritten,
    the others keep whatever they held before. *)
Definition fill (data buff : bytes) : bytes :=
  firstn (length buff) (data ++ skipn (length data) buff).

(** Go errors.  [io.EOF] and [context.Canceled] are compared by identity in
    the source, so they are constructors of their own; any other error is
    known by its message only. *)
Inductive error : Type :=
| io_EOF
| context_Canceled
| errorString (msg : string).

Definition Error (e : error) : string :=
  match e with
  | io_EOF => "EOF"
  | context_Canceled => "context canceled"
  | errorString m => m
  end.

Definition is_EOF (e : error) : bool :=
  match e with io_EOF => true | _ => false end.

Definition is_Canceled (e : option error) : bool :=
  match e with Some context_Canceled => true | _ => false end.

(** [strings.Contains s sub]. *)
Fixpoint Contains (s sub : string) : bool :=
  String.prefix sub s ||
  match s with
  | EmptyString => false
  | String _ s' => Contains s' sub
  end.

Definition closed_conn_msg : string := "use of closed network connection".

(** ** The address codec of package [lib] *)

Definition nat_of_byte (b : byte) : nat := N.to_nat (Byte.to_N b).

Definition decimal (n : nat) : string :=
  DecimalString.NilZero.string_of_uint (Nat.to_uint n).

Definition hexadecimal (n : nat) : string :=
  HexadecimalString.NilZero.string_of_uint (Nat.to_hex_uint n).

Definition port_of (hi lo : byte) : nat := 256 * nat_of_byte hi + nat_of_byte lo.

(** Modelled from the spec: [lib.SplitAddr], absent from the sources at
    hand.  It slices the SOCKS5 address block [ATYP DST.ADDR DST.PORT] off
    the front of its argument (IPv4: 4 address bytes, domain name: a length
    byte and that many name bytes, IPv6: 16 address bytes; 2 port bytes
    each) and returns nil when the block is malformed or cut short.  The
    result is a sub-slice of the argument, so the embedding keeps its
    length ([0] for nil) and reads its content through the shared array. *)
Definition SplitAddr (b : bytes) : nat :=
  match b with
  | [] => 0
  | atyp :: tl =>
      let addrLen :=
        match atyp, tl with
        | x01, _ => 1 + 4 + 2
        | x03, l :: _ => 1 + 1 + nat_of_byte l + 2
        | x04, _ => 1 + 16 + 2
        | _, _ => 0
        end in
      if addrLen <=? length b then addrLen else 0
  end.

Fixpoint hex_groups (b : bytes) : list string :=
  match b with
  | hi :: lo :: rest => hexadecimal (port_of hi lo) :: hex_groups rest
  | _ => []
  end.

(** Modelled from the spec: [lib.Addr.String], absent from the sources at
    hand: the textual destination [host:port] of an address block.  The
    spec fixes no text form for IPv6 hosts; they are rendered here as
    bracketed groups of hexadecimal digits. *)
Definition Addr_String (a : bytes) : string :=
  match a with
  | x01 :: a1 :: a2 :: a3 :: a4 :: hi :: lo :: _ =>
      decimal (nat_of_byte a1) ++ "." ++ decimal (nat_of_byte a2) ++ "."
        ++ decimal (nat_of_byte a3) ++ "." ++ decimal (nat_of_byte a4)
        ++ ":" ++ decimal (port_of hi lo)
  | x03 :: l :: rest =>
      match skipn (nat_of_byte l) rest with
      | hi :: lo :: _ =>
          string_of_list_byte (firstn (nat_of_byte l) rest)
            ++ ":" ++ decimal (port_of hi lo)
      | _ => ""
      end
  | x04 :: rest =>
      match skipn 16 rest with
      | hi :: lo :: _ =>
          "[" ++ String.concat ":" (hex_groups (firstn 16 rest)) ++ "]:"
            ++ decimal (port_of hi lo)
      | _ => ""
      end
  | _ => ""
  end.

(** ** Constants of the client *)

Definition leakyBufSize : nat := 4108.
Definition maxNBuf : nat := 2048.

(** ** Events *)

(** One constructor per call the handlers make into the outside world.  The
    arguments are the values passed, followed by what the call returned.
    [StreamRecv] also records what [ctx.Err()] reports at the moment the
    call returns, and [ReadFrom] the instant at which it returns. *)
Inductive event : Type :=
| GetReqAddr (r : bytes + error)
| ConnWrite (p : bytes) (err : option error)
| ConnRead (data : bytes) (err : option error)
| ConnClose
| GRPCClient (err : option error)
| Pipeline (err : option error)
| StreamSend (p : bytes) (err : option error)
| StreamRecv (r : bytes + error) (ctx_err : option error)
| StreamCloseSend (err : option error)
| CtxCancel
| LeakyGet (len : nat)
| LeakyPut (len : nat)
| ListenPacket (err : option error)
| SetReadDeadline (t : Z)
| ReadFrom (t : Z) (data : bytes) (addr : string) (err : option error)
| UdpClose
| Errorf (format : string) (arg : string)
| Errorln (arg : string)
| Debugf (format : string) (args : list string)
| GoSpawn.

(** How a function body stopped: it returned, it is parked for ever in a
    blocking call because the environment has nothing more to deliver, or
    it panicked. *)
Inductive outcome : Type := Returned | Blocked | Panicked.

(** ** Observations on traces *)

Definition stream_sends (tr : list event) : list bytes :=
  flat_map (fun e => match e with StreamSend p _ => [p] | _ => [] end) tr.

(** Frames the stream accepted (the call returned [nil]). *)
Definition stream_accepted (tr : list event) : list bytes :=
  flat_map (fun e => match e with StreamSend p None => [p] | _ => [] end) tr.

(** Payload of a [Send] that returned an error. *)
Definition stream_rejected (tr : list event) : list bytes :=
  flat_map (fun e => match e with StreamSend p (Some _) => [p] | _ => [] end) tr.

Definition conn_reads (tr : list event) : list bytes :=
  flat_map (fun e => match e with ConnRead d _ => [d] | _ => [] end) tr.

Definition conn_writes (tr : list event) : list bytes :=
  flat_map (fun e => match e with ConnWrite p _ => [p] | _ => [] end) tr.

Definition conn_written (tr : list event) : list bytes :=
  flat_map (fun e => match e with ConnWrite p None => [p] | _ => [] end) tr.

Definition conn_unwritten (tr : list event) : list bytes :=
  flat_map (fun e => match e with ConnWrite p (Some _) => [p] | _ => [] end) tr.

Definition stream_recvs (tr : list event) : list bytes :=
  flat_map (fun e => match e with StreamRecv (inl p) _ => [p] | _ => [] end) tr.

Definition leaky_gets (tr : list event) : list nat :=
  flat_map (fun e => match e with LeakyGet b => [b] | _ => [] end) tr.

Definition leaky_puts (tr : list event) : list nat :=
  flat_map (fun e => match e with LeakyPut b => [b] | _ => [] end) tr.

Definition is_error_log (e : event) : bool :=
  match e with Errorf _ _ | Errorln _ => true | _ => false end.

Definition error_logs (tr : list event) : list event := filter is_error_log tr.

(** ** The TCP relay: [tcpHandler] *)

(** What the outside world answers in one turn of the upstream loop (lines
    125-148): the bytes and error of [conn.Read], and the error of the
    [stream.Send] that follows when [n > 0]. *)
Record up_turn : Type := UpTurn {
  rd_data : bytes;
  rd_err : option error;
  snd_err : option error
}.

(** What the outside world answers in one turn of the downstream goroutine
    (lines 100-120): [stream.Recv] fails with an error, observed together
    with the value of [ctx.Err()], or it yields a payload, and then
    [conn.Write] returns its error. *)
Inductive down_turn : Type :=
| RecvErr (e : error) (ctx_err : option error)
| RecvOk (p : bytes) (ctx_err : option error) (wr_err : option error).

Record tcp_env : Type := TcpEnv {
  req_addr : bytes + error;          (* lib.GetReqAddr(conn) *)
  reply_err : option error;          (* conn.Write of the reply *)
  client_err : option error;         (* gRPCClient() *)
  pipeline_err : option error;       (* client.Pipeline(ctx) *)
  first_send_err : option error;     (* stream.Send of the first frame *)
  close_send_err : option error;     (* stream.CloseSend() *)
  peer_info : option string;         (* peer.FromContext(sCtx) *)
  remote_addr : string;              (* conn.RemoteAddr().String() *)
  pooled : bytes;                    (* the buffer leakyBuf.Get() hands out *)
  up_io : list up_turn;
  down_io : list down_turn
}.

(** The reply of line 60. *)
Definition connect_reply : bytes :=
  [x05; x00; x00; x01; x00; x00; x00; x00; x00; x00].

(** The goroutine of lines 100-120. *)
Fixpoint downstream (io : list down_turn) : list event * outcome :=
  match io with
  | [] => ([], Blocked)
  | RecvErr e ctx_err :: _ =>
      ([StreamRecv (inr e) ctx_err]
         ++ (if negb (is_EOF e) && negb (is_Canceled ctx_err)
             then [Errorf "stream recv err: %s" (Error e)] else [])
         ++ [ConnClose], Returned)
  | RecvOk p c (Some e) :: _ =>
      ([StreamRecv (inl p) c; ConnWrite p (Some e)]
         ++ (if negb (Contains (Error e) closed_conn_msg)
             then [Errorf "conn write err: %s" (Error e)] else [])
         ++ [ConnClose], Returned)
  | RecvOk p c None :: rest =>
      let (tr, o) := downstream rest in
      (StreamRecv (inl p) c :: ConnWrite p None :: tr, o)
  end.

(** The loop of lines 125-148.  [buff] is the backing array of the pooled
    buffer: each read overwrites its front, and the frame payload
    [buff[:n]] is a view of it that [stream.Send] serialises during the
    call.  The variable [err] holds the read error until line 130 assigns
    the result of [Send] to it, so the test of line 137 sees the read error
    only when nothing was sent in this turn. *)
Fixpoint upstream (io : list up_turn) (buff : bytes) : list event * outcome :=
  match io with
  | [] => ([], Blocked)
  | t :: rest =>
      let n := length (rd_data t) in
      let buff' := fill (rd_data t) buff in
      let read := ConnRead (rd_data t) (rd_err t) in
      if 0 <? n then
        match slice_to buff' n with
        | None => ([read], Panicked)
        | Some data =>
            match snd_err t with
            | Some e =>
                ([read; StreamSend data (Some e);
                  Errorf "stream send err: %s" (Error e)], Returned)
            | None =>
                let (tr, o) := upstream rest buff' in
                (read :: StreamSend data None :: tr, o)
            end
        end
      else
        match rd_err t with
        | Some _ => ([read], Returned)
        | None =>
            let (tr, o) := upstream rest buff' in
            (read :: tr, o)
        end
  end.

(** A run of a handler: the trace of the calling goroutine (deferred calls
    included, in the order Go runs them), how it stopped, and the run of
    the goroutine it started, if it got that far. *)
Record run : Type := Run {
  main_trace : list event;
  main_outcome : outcome;
  spawned : option (list event * outcome)
}.

(** Deferred calls run last-in first-out when the function returns or
    panics; a goroutine parked in a blocking call never reaches them. *)
Definition unwind (o : outcome) (defers : list event) : list event :=
  match o with
  | Blocked => []
  | _ => defers
  end.

Definition tcp_debug (what : string) (env : tcp_env) (addrStr : string) : event :=
  match peer_info env with
  | Some info =>
      Debugf (what ++ " %q<-->%q<-->%q") [remote_addr env; info; addrStr]
  | None =>
      Debugf (what ++ " %q<-->%q") [remote_addr env; addrStr]
  end.

Definition tcpHandler (env : tcp_env) : run :=
  match req_addr env with
  | inr e =>
      Run [GetReqAddr (inr e); Errorf "get req addr err: %s" (Error e)]
          Returned None
  | inl addr =>
  let t1 := [GetReqAddr (inl addr); ConnWrite connect_reply (reply_err env)] in
  match reply_err env with
  | Some _ => Run t1 Returned None
  | None =>
  let t2 := t1 ++ [GRPCClient (client_err env)] in
  match client_err env with
  | Some e => Run (t2 ++ [Errorln (Error e)]) Returned None
  | None =>
  let d1 := [CtxCancel] in
  let t3 := t2 ++ [Pipeline (pipeline_err env)] in
  match pipeline_err env with
  | Some e =>
      Run (t3 ++ [Errorf "establish stream err: %s" (Error e)] ++ d1)
          Returned None
  | None =>
  let d2 := StreamCloseSend (close_send_err env) :: d1 in
  let addrStr := Addr_String addr in
  let t4 := t3 ++ [StreamSend (bytes_of_string addrStr) (first_send_err env)] in
  match first_send_err env with
  | Some e =>
      Run (t4 ++ [Errorf "first frame send err: %s" (Error e)] ++ d2)
          Returned None
  | None =>
  let d3 := tcp_debug "tcp close" env addrStr :: d2 in
  let t5 := t4 ++ [tcp_debug "tcp estab" env addrStr; GoSpawn] in
  let buff := pooled env in
  let d4 := LeakyPut (length buff) :: d3 in
  let (loop, o) := upstream (up_io env) buff in
  Run (t5 ++ [LeakyGet (length buff)] ++ loop ++ unwind o d4) o
      (Some (downstream (down_io env)))
  end end end end end.

(** ** The UDP relay: [udpHandler] *)

(** [time.Second]: a [Duration] counts nanoseconds, and so do instants. *)
Definition Second : Z := 1000000000.

(** The conversions [int16(x)] and [uint16(x)] of Go, which wrap around. *)
Definition int16 (x : Z) : Z := ((x + 32768) mod 65536 - 32768)%Z.
Definition uint16 (x : Z) : Z := (x mod 65536)%Z.

(** [byte(x)]: the low eight bits. *)
Definition byte_of_Z (x : Z) : byte :=
  match Byte.of_N (Z.to_N (x mod 256)) with
  | Some b => b
  | None => x00
  end.

Definition Z_of_byte (b : byte) : Z := Z.of_N (Byte.to_N b).

(** [binary.BigEndian.PutUint16]. *)
Definition PutUint16 (v : Z) : bytes :=
  [byte_of_Z (Z.shiftr v 8); byte_of_Z v].

(** [binary.Write(buf, binary.BigEndian, v)] for [v] of type [int16]: the
    two bytes of [uint16(v)] are appended to the buffer. *)
Definition binary_Write_int16 (buf : bytes) (v : Z) : bytes :=
  buf ++ PutUint16 (uint16 v).

(** Lines 171-176: the reply to UDP ASSOCIATE for the bound port. *)
Definition associate_reply (port : Z) : option bytes :=
  let replay := [x05; x00; x00; x01] in
  let rawServerBindAddr := binary_Write_int16 [x00; x00; x00; x00] (int16 port) in
  match slice_to rawServerBindAddr 6 with
  | Some s => Some (replay ++ s)
  | None => None
  end.

(** One thing that reaches the datagram socket: a datagram from [src_addr],
    or a failure of the socket, at instant [at_time]. *)
Record udp_read : Type := UdpRead {
  at_time : Z;
  src_addr : string;
  pkt : bytes;
  rf_err : option error
}.

Record udp_env : Type := UdpEnv {
  u_req_addr : bytes + error;        (* lib.GetReqAddr(conn) *)
  u_listen_err : option error;       (* net.ListenPacket *)
  u_now : Z;                         (* time.Now() at line 168 *)
  u_port : Z;                        (* serverBindAddr.Port *)
  u_reply_err : option error;        (* conn.Write(replay) *)
  u_client_err : option error;       (* gRPCClient() *)
  u_pipeline_err : option error;     (* client.PipelineUDP *)
  u_close_send_err : option error;   (* stream.CloseSend() *)
  UDPMaxSize : nat;                  (* lib.UDPMaxSize *)
  u_reads : list udp_read;
  u_send_errs : list (option error)  (* results of the calls of stream.Send *)
}.

Definition timeout : error := errorString "i/o timeout".

(** [udpLn.ReadFrom(buff)] on a socket whose read deadline is [deadline] (an
    absolute instant, as [SetReadDeadline] takes it): what arrives before
    the deadline is delivered, cut to the capacity of [buff]; otherwise the
    call fails at the deadline with a timeout and leaves the queue alone. *)
Definition read_from (deadline : Z) (cap : nat) (pending : list udp_read)
  : Z * bytes * string * option error * list udp_read :=
  match pending with
  | [] => (deadline, [], "", Some timeout, [])
  | r :: rest =>
      if (at_time r <? deadline)%Z
      then (at_time r, firstn cap (pkt r), src_addr r, rf_err r, rest)
      else (deadline, [], "", Some timeout, pending)
  end.

(** Where a per-datagram goroutine (lines 236-270) stands. *)
Inductive pc : Type :=
| AtSplit        (* line 248 *)
| AtString       (* line 250 *)
| AtLog          (* line 252 *)
| AtFirstTest    (* line 254 *)
| AtFirstSet     (* line 255 *)
| AtSendDst      (* line 256 *)
| AtSendData     (* lines 263-265 *)
| Finished
| Crashed.

(** A per-datagram goroutine: the [n] it captured, the length of its [dst]
    once computed, the turn of the loop whose variable [err] it captured,
    and its program point.  Its [buff] is the shared array. *)
Record task : Type := Task {
  t_n : nat;
  t_dst : nat;
  t_turn : nat;
  t_pc : pc
}.

(** Where the goroutine that runs [udpHandler] stands.  [MainKilled]: the
    process was ended, while the loop was running, by a panic in one of the
    per-datagram goroutines. *)
Inductive main_pc : Type :=
| MainRead       (* line 231 *)
| MainCheck      (* line 274 *)
| MainReturned
| MainKilled.

(** The memory the goroutines of one association share, the goroutines, and
    what is left of the environment. *)
Record udp_state : Type := UdpState {
  buff : bytes;
  first : bool;
  DSTAddr : string;
  BNDAddr : string;
  err_cell : option error;     (* [err] of the current turn of the loop *)
  turn : nat;
  main_at : main_pc;
  tasks : list task;
  pending : list udp_read;
  send_errs : list (option error);
  deadline : Z;
  close_err : option error;
  trace : list event
}.

Definition emit (evs : list event) (st : udp_state) : udp_state :=
  UdpState (buff st) (first st) (DSTAddr st) (BNDAddr st) (err_cell st)
    (turn st) (main_at st) (tasks st) (pending st) (send_errs st)
    (deadline st) (close_err st) (trace st ++ evs).

Definition set_main (m : main_pc) (st : udp_state) : udp_state :=
  UdpState (buff st) (first st) (DSTAddr st) (BNDAddr st) (err_cell st)
    (turn st) m (tasks st) (pending st) (send_errs st)
    (deadline st) (close_err st) (trace st).

Definition set_first (b : bool) (st : udp_state) : udp_state :=
  UdpState (buff st) b (DSTAddr st) (BNDAddr st) (err_cell st)
    (turn st) (main_at st) (tasks st) (pending st) (send_errs st)
    (deadline st) (close_err st) (trace st).

Definition set_DSTAddr (s : string) (st : udp_state) : udp_state :=
  UdpState (buff st) (first st) s (BNDAddr st) (err_cell st)
    (turn st) (main_at st) (tasks st) (pending st) (send_errs st)
    (deadline st) (close_err st) (trace st).

Definition set_err_cell (e : option error) (st : udp_state) : udp_state :=
  UdpState (buff st) (first st) (DSTAddr st) (BNDAddr st) e
    (turn st) (main_at st) (tasks st) (pending st) (send_errs st)
    (deadline st) (close_err st) (trace st).

Definition set_tasks (ts : list task) (st : udp_state) : udp_state :=
  UdpState (buff st) (first st) (DSTAddr st) (BNDAddr st) (err_cell st)
    (turn st) (main_at st) ts (pending st) (send_errs st)
    (deadline st) (close_err st) (trace st).

Definition pop_send_err (st : udp_state) : udp_state :=
  UdpState (buff st) (first st) (DSTAddr st) (BNDAddr st) (err_cell st)
    (turn st) (main_at st) (tasks st) (pending st) (tl (send_errs st))
    (deadline st) (close_err st) (trace st).

Fixpoint replace_nth {A} (k : nat) (x : A) (l : list A) : list A :=
  match l, k with
  | [], _ => []
  | _ :: l', 0 => x :: l'
  | y :: l', S k' => y :: replace_nth k' x l'
  end.

Definition goto (k : nat) (t : task) (p : pc) (st : udp_state) : udp_state :=
  set_tasks (replace_nth k (Task (t_n t) (t_dst t) (t_turn t) p) (tasks st)) st.

Definition has_crashed (t : task) : bool :=
  match t_pc t with Crashed => true | _ => false end.

(** A panic that no goroutine recovers ends the whole process: no goroutine
    moves any more and no deferred call of another goroutine runs.  While
    [udpHandler] is running the end of the process is recorded in [main_at];
    once it has returned, by the goroutine that panicked. *)
Definition dead (st : udp_state) : bool :=
  match main_at st with
  | MainKilled => true
  | MainReturned => existsb has_crashed (tasks st)
  | MainRead | MainCheck => false
  end.

(** The [k]-th per-datagram goroutine panics (a slice expression out of
    range): the process ends there. *)
Definition panic (k : nat) (t : task) (st : udp_state) : udp_state :=
  match main_at st with
  | MainReturned => goto k t Crashed st
  | _ => set_main MainKilled (goto k t Crashed st)
  end.

(** The deferred calls of [udpHandler], in the order they run. *)
Definition udp_defers (close : option error) : list event :=
  StreamCloseSend close ::
  match close with
  | Some e => [Errorf "close stream err: %s" (Error e)]
  | None => []
  end ++ [UdpClose].

(** One step of the goroutine that runs [udpHandler]: lines 231-272 of one
    turn of the loop, or the test of line 274 and, when it breaks, what
    follows up to the return. *)
Definition main_step (st : udp_state) : udp_state :=
  match main_at st with
  | MainRead =>
      let '(t, data, addr, err, rest) :=
        read_from (deadline st) (length (buff st)) (pending st) in
      let n := length data in
      let this := S (turn st) in
      UdpState (fill data (buff st)) (first st) (DSTAddr st)
        (if 0 <? n then addr else BNDAddr st)
        err this MainCheck
        (if 0 <? n then tasks st ++ [Task n 0 this AtSplit] else tasks st)
        rest (send_errs st) (deadline st) (close_err st)
        (trace st ++ ReadFrom t data addr err
                  :: (if 0 <? n then [GoSpawn] else []))
  | MainCheck =>
      match err_cell st with
      | Some _ =>
          set_main MainReturned
            (emit (Debugf "closed udp connection to %s" [DSTAddr st]
                     :: udp_defers (close_err st)) st)
      | None => set_main MainRead st
      end
  | MainReturned | MainKilled => st
  end.

(** One step of the [k]-th per-datagram goroutine.  Each step makes at most
    one access to the shared memory or one call.  A slice expression out of
    range panics, which ends the process; in a process that has ended
    nothing moves. *)
Definition task_step (k : nat) (st : udp_state) : udp_state :=
  if dead st then st else
  match nth_error (tasks st) k with
  | None => st
  | Some t =>
      match t_pc t with
      | AtSplit =>
          match slice (buff st) 3 (t_n t) with
          | None => panic k t st
          | Some b =>
              set_tasks
                (replace_nth k (Task (t_n t) (SplitAddr b) (t_turn t) AtString)
                   (tasks st)) st
          end
      | AtString =>
          goto k t AtLog
            (set_DSTAddr
               (Addr_String (firstn (t_dst t) (skipn 3 (buff st)))) st)
      | AtLog =>
          goto k t AtFirstTest
            (emit [Debugf "udp %q --> %q" [BNDAddr st; DSTAddr st]] st)
      | AtFirstTest =>
          goto k t (if first st then AtSendData else AtFirstSet) st
      | AtFirstSet =>
          goto k t AtSendDst (set_first true st)
      | AtSendDst =>
          let frame := StreamSend (bytes_of_string (DSTAddr st))
                         (hd None (send_errs st)) in
          match hd None (send_errs st) with
          | Some e =>
              goto k t Finished
                (pop_send_err
                   (emit [frame; Errorf "first frame send err: %s" (Error e)]
                      st))
          | None => goto k t AtSendData (pop_send_err (emit [frame] st))
          end
      | AtSendData =>
          match slice (buff st) (3 + t_dst t) (t_n t) with
          | None => panic k t st
          | Some data =>
              let r := hd None (send_errs st) in
              let st1 := pop_send_err
                (emit (StreamSend data r ::
                       match r with
                       | Some e => [Errorf "stream send err: %s" (Error e)]
                       | None => []
                       end) st) in
              goto k t Finished
                (if t_turn t =? turn st then set_err_cell r st1 else st1)
          end
      | Finished | Crashed => st
      end
  end.

(** A schedule names, step by step, the goroutine that moves: [0] is the
    one running [udpHandler], [S k] the [k]-th per-datagram goroutine.  A
    goroutine that cannot move leaves the state as it is, and so does every
    goroutine once the process has ended ([dead]). *)
Definition step (st : udp_state) (who : nat) : udp_state :=
  match who with
  | 0 => main_step st
  | S k => task_step k st
  end.

Definition exec (sched : list nat) (st : udp_state) : udp_state :=
  fold_left step sched st.

(** Lines 151-229: everything before the loop.  The result is the trace of
    a run that ended there, or the state in which the loop is entered.
    The goroutine started at line 206 only receives from the stream and
    writes to the datagram socket; it appears as [GoSpawn]. *)
Definition udp_setup (env : udp_env) : list event + udp_state :=
  match u_req_addr env with
  | inr e => inl [GetReqAddr (inr e); Errorf "get request err: %s" (Error e)]
  | inl a =>
  let t1 := [GetReqAddr (inl a); ListenPacket (u_listen_err env)] in
  match u_listen_err env with
  | Some e => inl (t1 ++ [Errorf "create udp conn err: %s" (Error e)])
  | None =>
  let d1 := [UdpClose] in
  let t2 := t1 ++ [SetReadDeadline (u_now env + Second * 600)%Z] in
  match associate_reply (u_port env) with
  | None => inl (t2 ++ d1)
  | Some replay =>
  let t3 := t2 ++ [ConnWrite replay (u_reply_err env)] in
  match u_reply_err env with
  | Some _ => inl (t3 ++ d1)
  | None =>
  let t4 := t3 ++ [GRPCClient (u_client_err env)] in
  match u_client_err env with
  | Some e => inl (t4 ++ [Errorln (Error e)] ++ d1)
  | None =>
  let t5 := t4 ++ [Pipeline (u_pipeline_err env)] in
  match u_pipeline_err env with
  | Some e => inl (t5 ++ [Errorf "establish stream err: %s" (Error e)] ++ d1)
  | None =>
      inr (UdpState (repeat x00 (UDPMaxSize env)) false "" "" None 0 MainRead
             [] (u_reads env) (u_send_errs env)
             (u_now env + Second * 600)%Z (u_close_send_err env)
             (t5 ++ [GoSpawn]))
  end end end end end end.

(** A run of [udpHandler] under a schedule: the calls made, in order. *)
Definition udpHandler (env : udp_env) (sched : list nat) : list event :=
  match udp_setup env with
  | inl tr => tr
  | inr st => trace (exec sched st)
  end.

(** The schedule in which every per-datagram goroutine runs to its end
    before the next datagram is read: turn of the loop, then the seven
    steps of the goroutine it started. *)
Fixpoint serial (k count : nat) : list nat :=
  match count with
  | 0 => []
  | S c => 0 :: 0 :: repeat (S k) 7 ++ serial (S k) c
  end.

(** The SOCKS5 UDP envelope [RSV(2) FRAG(1) ATYP DST.ADDR DST.PORT DATA]
    for a destination given by domain name. *)
Definition envelope (host : string) (port_hi port_lo : byte) (data : bytes)
  : bytes :=
  [x00; x00; x00; x03]
    ++ byte_of_Z (Z.of_nat (String.length host))
    :: bytes_of_string host ++ [port_hi; port_lo] ++ data.

(** The parts of the trace of an established TCP session around the copy
    loop: what precedes [leakyBuf.Get()], and the deferred calls. *)
Definition tcp_prelude (env : tcp_env) (addr : bytes) : list event :=
  [GetReqAddr (inl addr); ConnWrite connect_reply None; GRPCClient None;
   Pipeline None; StreamSend (bytes_of_string (Addr_String addr)) None;
   tcp_debug "tcp estab" env (Addr_String addr); GoSpawn].

Definition tcp_cleanup (env : tcp_env) (addr : bytes) : list event :=
  [LeakyPut (length (pooled env));
   tcp_debug "tcp close" env (Addr_String addr);
   StreamCloseSend (close_send_err env); CtxCancel].

(** The events of the loop of [udpHandler] and of its goroutines. *)
Definition loop_event (ev : event) : bool :=
  match ev with
  | ReadFrom _ _ _ _ | GoSpawn | Debugf _ _ | StreamSend _ _ | Errorf _ _
  | StreamCloseSend _ | UdpClose => true
  | _ => false
  end.

(** A well-formed datagram of the client: three header bytes (RSV, FRAG),
    the address block of the destination, the data. *)
Record dgram : Type := Dgram {
  dg_at : Z;
  dg_src : string;
  dg_hdr : bytes;
  dg_addr : bytes;
  dg_data : bytes
}.

Definition dg_pkt (d : dgram) : bytes := dg_hdr d ++ dg_addr d ++ dg_data d.

Definition to_read (d : dgram) : udp_read :=
  UdpRead (dg_at d) (dg_src d) (dg_pkt d) None.

Definition well_formed (cap : nat) (deadline : Z) (d : dgram) : Prop :=
  length (dg_hdr d) = 3
  /\ SplitAddr (dg_addr d ++ dg_data d) = length (dg_addr d)
  /\ length (dg_pkt d) <= cap
  /\ (dg_at d < deadline)%Z.



(** A read of the datagram socket under the deadline [D]: it returns before
    [D], or it fails at [D] with a timeout and no data. *)
Definition read_ok (D : Z) (ev : event) : Prop :=
  match ev with
  | ReadFrom t d _ err =>
      (t < D)%Z \/ (t = D /\ d = [] /\ err = Some timeout)
  | _ => True
  end.

Definition deadlines (tr : list event) : list Z :=
  flat_map (fun e => match e with SetReadDeadline t => [t] | _ => [] end) tr.

(** The state in which the loop of [udpHandler] is entered, for an
    environment that lets the set-up through. *)
Definition entry_state (env : udp_env) : udp_state :=
  match udp_setup env with
  | inr st => st
  | inl tr =>
      UdpState [] false "" "" None 0 MainReturned [] [] [] 0 None tr
  end.

(** ** What the claims are measured against *)

(** The error lines the copy loop of a TCP session ought to print, read off
    the errors in its trace: a failed [Recv] is reported unless it is the
    end of the stream or the session context is canceled, a failed write to
    the client unless the message tells that the connection was closed, a
    failed [Send] always, a failed read of the client never. *)
Definition claimed_log (ev : event) : list event :=
  match ev with
  | StreamRecv (inr e) ctx_err =>
      if is_EOF e || is_Canceled ctx_err then []
      else [Errorf "stream recv err: %s" (Error e)]
  | ConnWrite _ (Some e) =>
      if Contains (Error e) closed_conn_msg then []
      else [Errorf "conn write err: %s" (Error e)]
  | StreamSend _ (Some e) => [Errorf "stream send err: %s" (Error e)]
  | _ => []
  end.

Definition claimed_logs (tr : list event) : list event :=
  flat_map claimed_log tr.

(** A turn of the upstream loop after which the loop is left. *)
Definition up_breaks (t : up_turn) : bool :=
  if 0 <? length (rd_data t)
  then match snd_err t with Some _ => true | None => false end
  else match rd_err t with Some _ => true | None => false end.

(** The steps of the remote leg of a TCP session. *)
Definition remote_leg (ev : event) : bool :=
  match ev with
  | GRPCClient _ | Pipeline _ | StreamSend _ _ | StreamRecv _ _
  | StreamCloseSend _ => true
  | _ => false
  end.

Definition nonempty (d : bytes) : bool := 0 <? length d.

Definition is_conn_read (ev : event) : bool :=
  match ev with ConnRead _ _ => true | _ => false end.

(** A session that got as far as the copy loop. *)
Definition established (env : tcp_env) : Prop :=
  (exists addr, req_addr env = inl addr)
  /\ reply_err env = None /\ client_err env = None
  /\ pipeline_err env = None /\ first_send_err env = None.

(** [conn.Read] never returns more than the buffer holds. *)
Definition reader_contract (env : tcp_env) : Prop :=
  length (pooled env) = leakyBufSize
  /\ Forall (fun t => length (rd_data t) <= leakyBufSize) (up_io env).



Definition torn_down (tr : list event) : bool :=
  existsb (fun ev => match ev with UdpClose => true | _ => false end) tr.

(** ** Example environments *)

Definition closed_err : error :=
  errorString "read tcp 127.0.0.1:1080: use of closed network connection".

Definition example_addr : bytes :=
  [x03; x0b] ++ bytes_of_string "example.com" ++ [x00; x35].

Definition hello : bytes := bytes_of_string "hello".
Definition world : bytes := bytes_of_string "world".

(** A session in which the client sends two chunks, the second together
    with a read error, and the remote answers with one frame and then ends
    the stream. *)
Definition example_tcp : tcp_env :=
  TcpEnv (inl example_addr) None None None None None
    (Some "203.0.113.7:443") "127.0.0.1:51000"
    (repeat x00 leakyBufSize)
    [UpTurn hello None None; UpTurn world (Some io_EOF) None;
     UpTurn [] (Some closed_err) None]
    [RecvOk world None None; RecvErr io_EOF None].

(** The same client, but the stream cannot be opened. *)
Definition example_tcp_no_stream : tcp_env :=
  TcpEnv (inl example_addr) None None (Some (errorString "unavailable")) None
    None None "127.0.0.1:51000" (repeat x00 leakyBufSize) [] [].

Definition X1 : bytes := bytes_of_string "X1".
Definition Y2 : bytes := bytes_of_string "Y2".

(** Two datagrams for the same destination, one second apart. *)
Definition example_udp : udp_env :=
  UdpEnv (inl []) None 0 40000 None None None None 64
    [UdpRead (1 * Second) "127.0.0.1:5353"
       (envelope "example.com" x00 x35 X1) None;
     UdpRead (2 * Second) "127.0.0.1:5353"
       (envelope "example.com" x00 x35 Y2) None]
    [].

(** The second goroutine tests [first] after the first one has set it and
    before the first one has sent the destination. *)
Definition data_first_schedule : list nat :=
  [0; 0; 1; 1; 1; 1; 1; 0; 0; 2; 2; 2; 2; 2; 1; 1].

(** Both goroutines test [first] before either sets it. *)
Definition twice_schedule : list nat :=
  [0; 0; 1; 1; 1; 1; 0; 0; 2; 2; 2; 2; 2; 2; 2; 1; 1; 1].


(** ** Further observations on traces *)

Definition is_conn_close (ev : event) : bool :=
  match ev with ConnClose => true | _ => false end.

Definition is_close_send (ev : event) : bool :=
  match ev with StreamCloseSend _ => true | _ => false end.

Definition is_cancel (ev : event) : bool :=
  match ev with CtxCancel => true | _ => false end.

Definition is_udp_close (ev : event) : bool :=
  match ev with UdpClose => true | _ => false end.


Definition count (P : event -> bool) (tr : list event) : nat :=
  length (filter P tr).

(** The events of the upstream loop. *)
Definition up_event (ev : event) : bool :=
  match ev with
  | ConnRead _ _ | StreamSend _ _ | Errorf _ _ => true
  | _ => false
  end.

(** The events of the downstream goroutine before it closes the socket. *)
Definition down_event (ev : event) : bool :=
  match ev with
  | StreamRecv _ _ | ConnWrite _ _ | Errorf _ _ => true
  | _ => false
  end.

(** How far the set-up of a TCP session got. *)
Definition client_acquired (env : tcp_env) : bool :=
  match req_addr env, reply_err env, client_err env with
  | inl _, None, None => true
  | _, _, _ => false
  end.

Definition stream_opened (env : tcp_env) : bool :=
  client_acquired env &&
  match pipeline_err env with None => true | Some _ => false end.

(** A turn of the upstream loop without the read error that came together
    with bytes. *)
Definition forget_read_err (t : up_turn) : up_turn :=
  if nonempty (rd_data t) then UpTurn (rd_data t) None (snd_err t) else t.

(** A turn of the downstream goroutine after which it ends. *)
Definition down_breaks (t : down_turn) : bool :=
  match t with
  | RecvErr _ _ | RecvOk _ _ (Some _) => true
  | RecvOk _ _ None => false
  end.


(** ** The dispatcher: [handleConnection] *)

(** Modelled from the spec: the command codes of package [lib], absent from
    the sources at hand: CONNECT is 0x01 and UDP ASSOCIATE is 0x03. *)
Definition CmdConnect : byte := x01.
Definition CmdUDPAssociate : byte := x03.

(** What one accepted connection meets: the result of [lib.Handshake], whose
    own traffic on the socket belongs to the library, and the environment
    of either handler; for the UDP handler also the schedule of its
    goroutines. *)
Record conn_env : Type := ConnEnv {
  handshake : byte + error;
  tcp_side : tcp_env;
  udp_side : udp_env;
  udp_sched : list nat
}.

(** Whether [udpHandler] has returned when the schedule is used up. *)
Definition udp_outcome (env : udp_env) (sched : list nat) : outcome :=
  match udp_setup env with
  | inl _ => Returned
  | inr st =>
      match main_at (exec sched st) with
      | MainReturned => Returned
      | _ => Blocked
      end
  end.

(** Lines 27-45.  The deferred [conn.Close()] runs when the handler has
    returned; for the UDP handler it is placed after the steps of the
    schedule. *)
Definition handleConnection (c : conn_env) : run :=
  match handshake c with
  | inr e =>
      Run ([Errorf "socks handshake err: %s" (Error e)] ++ [ConnClose])
          Returned None
  | inl cmd =>
      if Byte.eqb cmd CmdConnect then
        let r := tcpHandler (tcp_side c) in
        Run (main_trace r ++ unwind (main_outcome r) [ConnClose])
            (main_outcome r) (spawned r)
      else if Byte.eqb cmd CmdUDPAssociate then
        let o := udp_outcome (udp_side c) (udp_sched c) in
        Run (udpHandler (udp_side c) (udp_sched c) ++ unwind o [ConnClose])
            o None
      else
        Run ([Errorf "socks cmd %v not supported" (decimal (nat_of_byte cmd))]
               ++ [ConnClose])
            Returned None
  end.

(** A client that asks for BIND (0x02). *)
Definition example_bind : conn_env :=
  ConnEnv (inl x02) example_tcp example_udp [].

(** ** Further observations on the UDP relay *)

(** The events of a per-datagram goroutine. *)
Definition task_event (ev : event) : bool :=
  match ev with
  | Debugf _ _ | StreamSend _ _ | Errorf _ _ => true
  | _ => false
  end.

(** The sender of the last non-empty datagram read so far, [cur] when there
    was none. *)
Fixpoint last_src (cur : string) (tr : list event) : string :=
  match tr with
  | [] => cur
  | ReadFrom _ d a _ :: tr' => last_src (if nonempty d then a else cur) tr'
  | _ :: tr' => last_src cur tr'
  end.

(** How far the set-up of a UDP association got. *)
Definition socket_opened (env : udp_env) : bool :=
  match u_req_addr env, u_listen_err env with
  | inl _, None => true
  | _, _ => false
  end.



(** An association whose stream refuses the third frame, and one whose
    stream refuses the first. *)
Definition example_udp_refused : udp_env :=
  UdpEnv (inl []) None 0 40000 None None None None 64
    [UdpRead (1 * Second) "127.0.0.1:5353"
       (envelope "example.com" x00 x35 X1) None;
     UdpRead (2 * Second) "127.0.0.1:5353"
       (envelope "example.com" x00 x35 Y2) None]
    [None; None; Some (errorString "transport is closing")].

Definition example_udp_no_destination : udp_env :=
  UdpEnv (inl []) None 0 40000 None None None None 64
    [UdpRead (1 * Second) "127.0.0.1:5353"
       (envelope "example.com" x00 x35 X1) None;
     UdpRead (2 * Second) "127.0.0.1:5353"
       (envelope "example.com" x00 x35 Y2) None]
    [Some (errorString "transport is closing")].

(** The two datagrams of the examples, taken apart. *)
Definition example_dgram (at_s : Z) (data : bytes) : dgram :=
  Dgram (at_s * Second) "127.0.0.1:5353" [x00; x00; x00] example_addr data.

(** A client that sends a datagram of two bytes, from another port. *)
Definition example_udp_short : udp_env :=
  UdpEnv (inl []) None 0 40000 None None None None 64
    [UdpRead (1 * Second) "127.0.0.1:6000" [x00; x00] None] [].


(** ** The downstream goroutine of the UDP relay *)

(** The calls of the goroutine of lines 206-226. *)
Inductive down_call : Type :=
| DownRecv (r : bytes + error)
| WriteTo (p : bytes) (addr : string) (err : option error)
| DownErrorf (format : string) (arg : string)
| DownDebugf (format : string) (args : list string).

(** What the outside world answers in one turn of that goroutine:
    [stream.Recv] fails, or yields a payload and then [udpLn.WriteTo]
    returns its error. *)
Inductive udp_down_turn : Type :=
| UdpRecvErr (e : error)
| UdpRecvOk (p : bytes) (wr_err : option error).

Inductive down_pc : Type :=
| DownAtRecv                                  (* line 208 *)
| DownAtWrite (p : bytes) (w : option error)  (* line 218 *)
| DownAtLog                                   (* line 224 *)
| DownEnded
| DownCrashed.

(** An association: the loop with its per-datagram goroutines, and the
    downstream goroutine, which reads [netInfo] in the memory they share. *)
Record assoc : Type := Assoc {
  relay : udp_state;
  down_at : down_pc;
  replies_due : list udp_down_turn;
  down_trace : list down_call
}.

(** One step of the downstream goroutine.  [netInfo.BNDAddr] is nil, here
    the empty string, until a datagram has been read; calling [String] on
    it at line 224 panics. *)
Definition down_step (a : assoc) : assoc :=
  match down_at a with
  | DownAtRecv =>
      match replies_due a with
      | [] => a
      | UdpRecvErr e :: rest =>
          Assoc (relay a) DownEnded rest
            (down_trace a
               ++ DownRecv (inr e)
               :: (if is_EOF e then []
                   else [DownErrorf "stream recv err: %s" (Error e)]))
      | UdpRecvOk p w :: rest =>
          Assoc (relay a) (DownAtWrite p w) rest
            (down_trace a ++ [DownRecv (inl p)])
      end
  | DownAtWrite p w =>
      let call := WriteTo p (BNDAddr (relay a)) w in
      match w with
      | Some e =>
          Assoc (relay a) DownEnded (replies_due a)
            (down_trace a
               ++ [call; DownErrorf "conn write err: %s" (Error e)])
      | None => Assoc (relay a) DownAtLog (replies_due a) (down_trace a ++ [call])
      end
  | DownAtLog =>
      if String.eqb (BNDAddr (relay a)) "" then
        Assoc (relay a) DownCrashed (replies_due a) (down_trace a)
      else
        Assoc (relay a) DownAtRecv (replies_due a)
          (down_trace a
             ++ [DownDebugf "udp %q <-- %q"
                   [BNDAddr (relay a); DSTAddr (relay a)]])
  | DownEnded | DownCrashed => a
  end.

(** Who moves in a step of the association. *)
Inductive actor : Type :=
| Upward (who : nat)   (* the loop or a per-datagram goroutine *)
| Downward.

(** In a process that the panic of a per-datagram goroutine has ended the
    downstream goroutine does not move either. *)
Definition assoc_step (a : assoc) (x : actor) : assoc :=
  match x with
  | Upward who =>
      Assoc (step (relay a) who) (down_at a) (replies_due a) (down_trace a)
  | Downward => if dead (relay a) then a else down_step a
  end.

Definition assoc_exec (sched : list actor) (a : assoc) : assoc :=
  fold_left assoc_step sched a.

Definition upward_steps (sched : list actor) : list nat :=
  flat_map (fun x => match x with Upward w => [w] | Downward => [] end) sched.






(** The association as [udpHandler] starts it. *)
Definition assoc_entry (st0 : udp_state) (io : list udp_down_turn) : assoc :=
  Assoc st0 DownAtRecv io [].

(** A reply that arrives between the two datagrams of [example_udp], and
    then the end of the stream. *)
Definition example_replies : list udp_down_turn :=
  [UdpRecvOk hello None; UdpRecvErr io_EOF].

(** An association whose reply to the client cannot be written. *)
Definition example_udp_no_reply : udp_env :=
  UdpEnv (inl []) None 0 40000 (Some (errorString "broken pipe")) None None
    None 64 [] [].




(** The answers of the outside world a copy loop gets to see: all of them
    up to the first that makes it leave. *)
Fixpoint played {A : Type} (breaks : A -> bool) (io : list A) : list A :=
  match io with
  | [] => []
  | t :: rest => t :: (if breaks t then [] else played breaks rest)
  end.

(** The error line one answer to the downstream goroutine calls for: one
    line for a failed [Recv] that is neither the end of the stream nor met
    under a canceled context, one for a failed write whose message does
    not tell of a closed connection, none otherwise. *)
Definition down_turn_logs (t : down_turn) : list event :=
  match t with
  | RecvErr e ctx_err =>
      if is_EOF e || is_Canceled ctx_err then []
      else [Errorf "stream recv err: %s" (Error e)]
  | RecvOk _ _ (Some e) =>
      if Contains (Error e) closed_conn_msg then []
      else [Errorf "conn write err: %s" (Error e)]
  | RecvOk _ _ None => []
  end.

(** The same for one answer to the upstream loop: one line for a refused
    [Send], none for a failed read. *)
Definition up_turn_logs (t : up_turn) : list event :=
  if nonempty (rd_data t)
  then match snd_err t with
       | Some e => [Errorf "stream send err: %s" (Error e)]
       | None => []
       end
  else [].

(** A session in which both directions fail with an error that is not one
    of the expected ones. *)
Definition example_tcp_loud : tcp_env :=
  TcpEnv (inl example_addr) None None None None None None "127.0.0.1:51000"
    (repeat x00 leakyBufSize)
    [UpTurn hello None None;
     UpTurn world None (Some (errorString "transport is closing"));
     UpTurn hello None None]
    [RecvOk world None None;
     RecvErr (errorString "rpc error: code = Unavailable") None;
     RecvOk hello None None].

(** A session whose downstream goroutine cannot write to the client, for a
    reason other than a closed connection. *)
Definition example_tcp_broken_pipe : tcp_env :=
  TcpEnv (inl example_addr) None None None None None None "127.0.0.1:51000"
    (repeat x00 leakyBufSize)
    [UpTurn [] (Some closed_err) None]
    [RecvOk world None (Some (errorString "write: broken pipe"))].



(** * Properties *)

(** ** Observations distribute over the parts of a trace *)

Lemma stream_sends_app (a b : list event) :
  stream_sends (a ++ b) = stream_sends a ++ stream_sends b.
Proof. apply flat_map_app. Qed.

Lemma conn_reads_app (a b : list event) :
  conn_reads (a ++ b) = conn_reads a ++ conn_reads b.
Proof. apply flat_map_app. Qed.

Lemma conn_writes_app (a b : list event) :
  conn_writes (a ++ b) = conn_writes a ++ conn_writes b.
Proof. apply flat_map_app. Qed.

Lemma leaky_gets_app (a b : list event) :
  leaky_gets (a ++ b) = leaky_gets a ++ leaky_gets b.
Proof. apply flat_map_app. Qed.

Lemma leaky_puts_app (a b : list event) :
  leaky_puts (a ++ b) = leaky_puts a ++ leaky_puts b.
Proof. apply flat_map_app. Qed.

Lemma error_logs_app (a b : list event) :
  error_logs (a ++ b) = error_logs a ++ error_logs b.
Proof. apply filter_app. Qed.

Lemma claimed_logs_app (a b : list event) :
  claimed_logs (a ++ b) = claimed_logs a ++ claimed_logs b.
Proof. apply flat_map_app. Qed.

(** ** The helpers on small inputs *)

Example Contains_closed :
  Contains (Error closed_err) closed_conn_msg = true
  /\ Contains "broken pipe" closed_conn_msg = false
  /\ Contains (Error io_EOF) closed_conn_msg = false.
Proof. repeat split. Qed.

Example SplitAddr_domain :
  SplitAddr (example_addr ++ hello) = length example_addr
  /\ Addr_String example_addr = "example.com:53"
  /\ Addr_String [x01; x7f; x00; x00; x01; x1f; x90] = "127.0.0.1:8080"
  /\ SplitAddr [x03; x0b; x65] = 0.
Proof. repeat split. Qed.

Example int16_wraps :
  int16 40000 = (-25536)%Z /\ int16 80 = 80%Z
  /\ PutUint16 (uint16 (int16 40000)) = [x9c; x40].
Proof. repeat split. Qed.

Example fill_keeps_the_rest :
  fill hello (bytes_of_string "0123456789") = bytes_of_string "hello56789"
  /\ slice_to (fill hello (bytes_of_string "0123456789")) 5 = Some hello
  /\ slice_to hello 6 = None.
Proof. repeat split. Qed.

(** ** Slices of the pooled buffer *)

Lemma fill_length (data buff : bytes) : length (fill data buff) = length buff.
Proof.
  unfold fill. rewrite length_firstn, length_app, length_skipn. lia.
Qed.

Lemma slice_to_fill (data buff : bytes) :
  length data <= length buff ->
  slice_to (fill data buff) (length data) = Some data.
Proof.
  intros Hle. unfold slice_to. rewrite fill_length.
  destruct (length data <=? length buff) eqn:E.
  - f_equal. unfold fill. rewrite firstn_firstn.
    replace (Nat.min (length data) (length buff)) with (length data + 0) by lia.
    rewrite firstn_app_2. simpl. now rewrite app_nil_r.
  - apply Nat.leb_gt in E. lia.
Qed.

Lemma concat_filter_nonempty (l : list bytes) :
  concat (filter nonempty l) = concat l.
Proof.
  induction l as [|d l IH]; [reflexivity|].
  destruct d as [|b d]; cbn [filter nonempty length Nat.ltb Nat.leb concat].
  - exact IH.
  - now rewrite IH.
Qed.

(** ** The upstream loop *)

(** Under the contract of [conn.Read] the payload [buff[:n]] is the chunk
    just read, whatever the recycled buffer held, and slicing never
    panics: the loop unfolds without any mention of the buffer content. *)
Lemma upstream_cons (t : up_turn) (rest : list up_turn) (buff : bytes) :
  length (rd_data t) <= length buff ->
  upstream (t :: rest) buff =
  let read := ConnRead (rd_data t) (rd_err t) in
  if nonempty (rd_data t) then
    match snd_err t with
    | Some e =>
        ([read; StreamSend (rd_data t) (Some e);
          Errorf "stream send err: %s" (Error e)], Returned)
    | None =>
        (read :: StreamSend (rd_data t) None
              :: fst (upstream rest (fill (rd_data t) buff)),
         snd (upstream rest (fill (rd_data t) buff)))
    end
  else
    match rd_err t with
    | Some _ => ([read], Returned)
    | None =>
        (read :: fst (upstream rest (fill (rd_data t) buff)),
         snd (upstream rest (fill (rd_data t) buff)))
    end.
Proof.
  intros Hle. simpl. unfold nonempty.
  rewrite (slice_to_fill _ _ Hle).
  destruct (upstream rest (fill (rd_data t) buff)) as [tr o].
  reflexivity.
Qed.

Section Upstream.

Variable L : nat.

Let fits (io : list up_turn) : Prop :=
  Forall (fun t => length (rd_data t) <= L) io.

Ltac upstream_step IH :=
  match goal with
  | Hf : fits (?t :: ?rest), Hb : length ?buff = L |- _ =>
      let Ht := fresh "Ht" in
      let Hrest := fresh "Hrest" in
      pose proof (Forall_inv Hf) as Ht;
      pose proof (Forall_inv_tail Hf) as Hrest;
      simpl in Ht;
      rewrite upstream_cons by lia;
      cbv zeta;
      specialize (IH (fill (rd_data t) buff) Hrest
                     (eq_trans (fill_length _ _) Hb));
      destruct (nonempty (rd_data t)) eqn:Hne;
      [destruct (snd_err t) | destruct (rd_err t)]
  end.

Lemma upstream_frames (io : list up_turn) :
  forall buff, fits io -> length buff = L ->
  stream_sends (fst (upstream io buff))
  = filter nonempty (conn_reads (fst (upstream io buff))).
Proof.
  induction io as [|t rest IH]; intros buff Hf Hb; [reflexivity|].
  upstream_step IH; simpl; rewrite ?Hne; simpl; congruence.
Qed.

Lemma upstream_no_panic (io : list up_turn) :
  forall buff, fits io -> length buff = L ->
  snd (upstream io buff) <> Panicked.
Proof.
  induction io as [|t rest IH]; intros buff Hf Hb; [discriminate|].
  upstream_step IH; simpl; congruence.
Qed.

(** The frames the stream accepted, followed by the one it refused (if
    any), are the frames sent: a refusal ends the loop. *)
Lemma upstream_rejected_last (io : list up_turn) :
  forall buff, fits io -> length buff = L ->
  let tr := fst (upstream io buff) in
  stream_sends tr = stream_accepted tr ++ stream_rejected tr
  /\ length (stream_rejected tr) <= 1.
Proof.
  induction io as [|t rest IH]; intros buff Hf Hb; [simpl; auto|].
  upstream_step IH; simpl in *; destruct IH as [IH1 IH2];
    split; try lia; congruence.
Qed.

(** Every read that brought bytes is followed at once by the [Send] of
    exactly these bytes, whether or not the read also brought an error. *)
Lemma upstream_read_then_send (io : list up_turn) :
  forall buff pre d err post, fits io -> length buff = L ->
  fst (upstream io buff) = pre ++ ConnRead d err :: post ->
  d <> [] ->
  exists r post', post = StreamSend d r :: post'.
Proof.
  induction io as [|t rest IH]; intros buff pre d err post Hf Hb Htr Hd.
  - destruct pre; discriminate.
  - pose proof (Forall_inv Hf) as Ht. pose proof (Forall_inv_tail Hf) as Hrest.
    simpl in Ht. rewrite upstream_cons in Htr by lia. cbv zeta in Htr.
    assert (Hb' : length (fill (rd_data t) buff) = L)
      by (rewrite fill_length; exact Hb).
    destruct (nonempty (rd_data t)) eqn:Hne.
    + destruct (snd_err t); simpl in Htr.
      * destruct pre as [|x pre]; simpl in Htr.
        { injection Htr as <- <- <-. eauto. }
        injection Htr as _ Htr.
        destruct pre as [|y pre]; [discriminate|].
        injection Htr as _ Htr.
        destruct pre as [|z pre]; [discriminate|].
        injection Htr as _ Htr. destruct pre; discriminate.
      * destruct pre as [|x pre]; simpl in Htr.
        { injection Htr as <- <- <-. eauto. }
        injection Htr as _ Htr.
        destruct pre as [|y pre]; [discriminate|].
        injection Htr as _ Htr.
        eapply IH; eauto.
    + destruct (rd_err t); simpl in Htr.
      * destruct pre as [|x pre]; simpl in Htr.
        { injection Htr as <- _ _. unfold nonempty in Hne.
          destruct (rd_data t); [congruence|discriminate]. }
        injection Htr as _ Htr. destruct pre; discriminate.
      * destruct pre as [|x pre]; simpl in Htr.
        { injection Htr as <- _ _. unfold nonempty in Hne.
          destruct (rd_data t); [congruence|discriminate]. }
        injection Htr as _ Htr. eapply IH; eauto.
Qed.

(** The error lines of the loop are those its answers call for. *)
Lemma upstream_turn_logs (io : list up_turn) :
  forall buff, fits io -> length buff = L ->
  error_logs (fst (upstream io buff))
  = flat_map up_turn_logs (played up_breaks io).
Proof.
  induction io as [|t rest IH]; intros buff Hf Hb; [reflexivity|].
  pose proof (Forall_inv Hf) as Ht. pose proof (Forall_inv_tail Hf) as Hrest.
  simpl in Ht. rewrite upstream_cons by lia. cbv zeta.
  specialize (IH (fill (rd_data t) buff) Hrest
                 (eq_trans (fill_length _ _) Hb)).
  cbn [played flat_map]. unfold up_turn_logs at 1, up_breaks.
  fold (nonempty (rd_data t)).
  destruct (nonempty (rd_data t)).
  - destruct (snd_err t); [reflexivity|]. simpl. exact IH.
  - destruct (rd_err t); [reflexivity|]. simpl. exact IH.
Qed.

End Upstream.

(** The loop touches neither the pool nor the stream's send side closing,
    and it logs exactly the refused [Send]. *)
Lemma upstream_pool (io : list up_turn) :
  forall buff,
  leaky_gets (fst (upstream io buff)) = []
  /\ leaky_puts (fst (upstream io buff)) = [].
Proof.
  induction io as [|t rest IH]; intros buff; [simpl; auto|].
  simpl. destruct (0 <? length (rd_data t)).
  - destruct (slice_to _ _); [|simpl; auto].
    destruct (snd_err t); [simpl; auto|].
    specialize (IH (fill (rd_data t) buff)).
    destruct (upstream rest _). simpl in *. exact IH.
  - destruct (rd_err t); [simpl; auto|].
    specialize (IH (fill (rd_data t) buff)).
    destruct (upstream rest _). simpl in *. exact IH.
Qed.

Lemma upstream_logs (io : list up_turn) :
  forall buff,
  error_logs (fst (upstream io buff)) = claimed_logs (fst (upstream io buff)).
Proof.
  induction io as [|t rest IH]; intros buff; [reflexivity|].
  simpl. destruct (0 <? length (rd_data t)).
  - destruct (slice_to _ _); [|reflexivity].
    destruct (snd_err t); [reflexivity|].
    specialize (IH (fill (rd_data t) buff)).
    destruct (upstream rest _). simpl in *. exact IH.
  - destruct (rd_err t); [reflexivity|].
    specialize (IH (fill (rd_data t) buff)).
    destruct (upstream rest _). simpl in *. exact IH.
Qed.

(** The loop is left as soon as one of its turns breaks. *)
Lemma upstream_exits (io : list up_turn) :
  forall buff, existsb up_breaks io = true ->
  snd (upstream io buff) <> Blocked.
Proof.
  induction io as [|t rest IH]; intros buff Hex; [discriminate|].
  simpl in *. unfold up_breaks in Hex.
  destruct (0 <? length (rd_data t)).
  - destruct (slice_to _ _); [|discriminate].
    destruct (snd_err t); [discriminate|].
    specialize (IH (fill (rd_data t) buff) Hex).
    destruct (upstream rest _). exact IH.
  - destruct (rd_err t); [discriminate|].
    specialize (IH (fill (rd_data t) buff) Hex).
    destruct (upstream rest _). exact IH.
Qed.

Lemma upstream_blocks (io : list up_turn) :
  forall buff, existsb up_breaks io = false ->
  snd (upstream io buff) <> Returned.
Proof.
  induction io as [|t rest IH]; intros buff Hex; [discriminate|].
  simpl in *. unfold up_breaks in Hex. apply orb_false_iff in Hex.
  destruct Hex as [Ht Hex].
  destruct (0 <? length (rd_data t)).
  - destruct (slice_to _ _); [|discriminate].
    destruct (snd_err t); [discriminate|].
    specialize (IH (fill (rd_data t) buff) Hex).
    destruct (upstream rest _). exact IH.
  - destruct (rd_err t); [discriminate|].
    specialize (IH (fill (rd_data t) buff) Hex).
    destruct (upstream rest _). exact IH.
Qed.

(** ** The downstream goroutine *)

Lemma downstream_frames (io : list down_turn) :
  conn_writes (fst (downstream io)) = stream_recvs (fst (downstream io)).
Proof.
  induction io as [|t rest IH]; [reflexivity|].
  destruct t as [e c|p c [e|]]; simpl.
  - destruct (negb (is_EOF e) && negb (is_Canceled c)); reflexivity.
  - destruct (negb (Contains (Error e) closed_conn_msg)); reflexivity.
  - destruct (downstream rest). simpl in *. now rewrite IH.
Qed.

Lemma downstream_written (io : list down_turn) :
  let tr := fst (downstream io) in
  conn_writes tr = conn_written tr ++ conn_unwritten tr
  /\ length (conn_unwritten tr) <= 1.
Proof.
  induction io as [|t rest IH]; [simpl; auto|].
  destruct t as [e c|p c [e|]]; simpl.
  - destruct (negb (is_EOF e) && negb (is_Canceled c)); simpl; auto.
  - destruct (negb (Contains (Error e) closed_conn_msg)); simpl; auto.
  - destruct (downstream rest). simpl in *. destruct IH as [IH1 IH2].
    split; [now rewrite IH1|exact IH2].
Qed.

Lemma downstream_logs (io : list down_turn) :
  error_logs (fst (downstream io)) = claimed_logs (fst (downstream io)).
Proof.
  induction io as [|t rest IH]; [reflexivity|].
  destruct t as [e c|p c [e|]]; simpl.
  - destruct (is_EOF e); simpl; [reflexivity|].
    destruct (is_Canceled c); reflexivity.
  - destruct (Contains (Error e) closed_conn_msg); reflexivity.
  - destruct (downstream rest). simpl in *. exact IH.
Qed.

(** A loop that leaves at the first answer that calls for a line prints at
    most as many lines as one answer calls for. *)
Lemma one_line_at_most {A : Type} (breaks : A -> bool)
    (logs : A -> list event) (io : list A) :
  (forall t, breaks t = false -> logs t = []) ->
  (forall t, length (logs t) <= 1) ->
  length (flat_map logs (played breaks io)) <= 1.
Proof.
  intros Hq H1. induction io as [|t rest IH]; simpl; [lia|].
  rewrite length_app. destruct (breaks t) eqn:Hb.
  - simpl. specialize (H1 t). lia.
  - rewrite (Hq t Hb). simpl. exact IH.
Qed.

Lemma downstream_turn_logs (io : list down_turn) :
  error_logs (fst (downstream io))
  = flat_map down_turn_logs (played down_breaks io).
Proof.
  induction io as [|t rest IH]; [reflexivity|].
  destruct t as [e c|p c [e|]]; simpl.
  - destruct (is_EOF e); simpl; [reflexivity|].
    destruct (is_Canceled c); reflexivity.
  - destruct (Contains (Error e) closed_conn_msg); reflexivity.
  - destruct (downstream rest). simpl in *. exact IH.
Qed.

(** ** The whole TCP session *)

Lemma tcpHandler_established (env : tcp_env) (addr : bytes) :
  req_addr env = inl addr -> reply_err env = None -> client_err env = None ->
  pipeline_err env = None -> first_send_err env = None ->
  tcpHandler env =
  Run (tcp_prelude env addr
         ++ LeakyGet (length (pooled env))
         :: fst (upstream (up_io env) (pooled env))
         ++ unwind (snd (upstream (up_io env) (pooled env)))
              (tcp_cleanup env addr))
      (snd (upstream (up_io env) (pooled env)))
      (Some (downstream (down_io env))).
Proof.
  intros H1 H2 H3 H4 H5. unfold tcpHandler.
  rewrite H1, H2, H3, H4, H5.
  destruct (upstream (up_io env) (pooled env)) as [loop o].
  reflexivity.
Qed.

(** A session that did not get as far as the copy loop reads nothing from
    the client, sends at most the first frame and starts no goroutine. *)
Lemma tcpHandler_not_established (env : tcp_env) :
  ~ established env ->
  conn_reads (main_trace (tcpHandler env)) = []
  /\ tl (stream_sends (main_trace (tcpHandler env))) = []
  /\ spawned (tcpHandler env) = None.
Proof.
  intros Hn. unfold tcpHandler.
  destruct (req_addr env) as [addr|e] eqn:H1; [|simpl; auto].
  destruct (reply_err env) eqn:H2; [simpl; auto|].
  destruct (client_err env) eqn:H3; [simpl; auto|].
  destruct (pipeline_err env) eqn:H4; [simpl; auto|].
  destruct (first_send_err env) eqn:H5; [simpl; auto|].
  exfalso. apply Hn. unfold established. eauto 10.
Qed.

Lemma established_dec (env : tcp_env) : established env \/ ~ established env.
Proof.
  unfold established.
  destruct (req_addr env) as [addr|e];
    [|right; intros [[a Ha] _]; discriminate].
  destruct (reply_err env); [right; intros (_ & H & _); discriminate|].
  destruct (client_err env); [right; intros (_ & _ & H & _); discriminate|].
  destruct (pipeline_err env);
    [right; intros (_ & _ & _ & H & _); discriminate|].
  destruct (first_send_err env);
    [right; intros (_ & _ & _ & _ & H); discriminate|].
  left. eauto 10.
Qed.

Lemma tcp_debug_is_debug (what : string) (env : tcp_env) (a : string) :
  exists f args, tcp_debug what env a = Debugf f args.
Proof. unfold tcp_debug. destruct (peer_info env); eauto. Qed.

Lemma unwind_cleanup_quiet (o : outcome) (env : tcp_env) (addr : bytes) :
  conn_reads (unwind o (tcp_cleanup env addr)) = []
  /\ stream_sends (unwind o (tcp_cleanup env addr)) = []
  /\ leaky_gets (unwind o (tcp_cleanup env addr)) = []
  /\ error_logs (unwind o (tcp_cleanup env addr)) = []
  /\ claimed_logs (unwind o (tcp_cleanup env addr)) = [].
Proof.
  destruct (tcp_debug_is_debug "tcp close" env (Addr_String addr))
    as (f & args & Hd).
  destruct o; unfold tcp_cleanup; simpl; rewrite ?Hd; simpl; auto.
Qed.

Lemma unwind_cleanup_puts (o : outcome) (env : tcp_env) (addr : bytes) :
  leaky_puts (unwind o (tcp_cleanup env addr))
  = match o with Blocked => [] | _ => [length (pooled env)] end.
Proof.
  destruct (tcp_debug_is_debug "tcp close" env (Addr_String addr))
    as (f & args & Hd).
  destruct o; unfold tcp_cleanup; simpl; rewrite ?Hd; reflexivity.
Qed.

Lemma prelude_quiet (env : tcp_env) (addr : bytes) :
  conn_reads (tcp_prelude env addr) = []
  /\ stream_sends (tcp_prelude env addr)
     = [bytes_of_string (Addr_String addr)]
  /\ leaky_gets (tcp_prelude env addr) = []
  /\ leaky_puts (tcp_prelude env addr) = []
  /\ error_logs (tcp_prelude env addr) = []
  /\ claimed_logs (tcp_prelude env addr) = [].
Proof.
  destruct (tcp_debug_is_debug "tcp estab" env (Addr_String addr))
    as (f & args & Hd).
  unfold tcp_prelude; simpl; rewrite ?Hd; simpl; auto 10.
Qed.

(** Where an event sits in a trace of three parts, when neither the first
    nor the last part holds an event of its kind. *)
Lemma split_middle {A : Type} (P : A -> bool) (x : A) :
  forall (a b c pre post : list A),
  forallb (fun y => negb (P y)) a = true ->
  forallb (fun y => negb (P y)) c = true ->
  P x = true ->
  a ++ b ++ c = pre ++ x :: post ->
  exists p q, b = p ++ x :: q /\ post = q ++ c /\ pre = a ++ p.
Proof.
  induction a as [|y a IHa]; simpl.
  - induction b as [|y b IHb]; intros c pre post _ Hc Hx Heq; simpl in Heq.
    + exfalso. rewrite forallb_forall in Hc.
      assert (Hin : In x c) by (rewrite Heq; apply in_elt).
      apply Hc in Hin. rewrite Hx in Hin. discriminate.
    + destruct pre as [|z pre]; simpl in Heq.
      * injection Heq as -> <-. exists [], b. auto.
      * injection Heq as -> Heq.
        destruct (IHb c pre post eq_refl Hc Hx Heq) as (p & q & -> & -> & ->).
        exists (z :: p), q. auto.
  - intros b c pre post Ha Hc Hx Heq.
    apply andb_true_iff in Ha. destruct Ha as [Hy Ha].
    destruct pre as [|z pre]; simpl in Heq.
    + injection Heq as -> _. rewrite Hx in Hy. discriminate.
    + injection Heq as -> Heq.
      destruct (IHa b c pre post Ha Hc Hx Heq) as (p & q & -> & -> & ->).
      exists p, q. auto.
Qed.

Lemma established_run (env : tcp_env) :
  established env ->
  exists addr,
    req_addr env = inl addr
    /\ tcpHandler env =
       Run (tcp_prelude env addr
              ++ LeakyGet (length (pooled env))
              :: fst (upstream (up_io env) (pooled env))
              ++ unwind (snd (upstream (up_io env) (pooled env)))
                   (tcp_cleanup env addr))
           (snd (upstream (up_io env) (pooled env)))
           (Some (downstream (down_io env))).
Proof.
  intros ([addr Ha] & H2 & H3 & H4 & H5). exists addr. split; [exact Ha|].
  now apply tcpHandler_established.
Qed.

(** C1: in every TCP session whose reads respect the buffer size, the frames
    sent after the destination frame are, one for one and in order, the
    non-empty chunks read from the client; concatenated, they are the bytes
    read: nothing lost, reordered or duplicated. *)
Theorem tcp_upstream_preserves_bytes (env : tcp_env) :
  reader_contract env ->
  let tr := main_trace (tcpHandler env) in
  tl (stream_sends tr) = filter nonempty (conn_reads tr)
  /\ concat (tl (stream_sends tr)) = concat (conn_reads tr)
  /\ main_outcome (tcpHandler env) <> Panicked.
Proof.
  intros [Hlen Hfit] tr.
  assert (Hframes : tl (stream_sends tr) = filter nonempty (conn_reads tr)
                    /\ main_outcome (tcpHandler env) <> Panicked).
  { subst tr. destruct (established_dec env) as [He|Hn].
    - destruct (established_run env He) as (addr & _ & ->).
      cbn [main_trace main_outcome].
      destruct (prelude_quiet env addr) as (Hr & Hs & _).
      destruct (unwind_cleanup_quiet
                  (snd (upstream (up_io env) (pooled env))) env addr)
        as (Hcr & Hcs & _).
      split.
      + change (LeakyGet ?n :: ?l) with ([LeakyGet n] ++ l).
        rewrite !stream_sends_app, !conn_reads_app, Hr, Hs, Hcr, Hcs.
        simpl. rewrite !app_nil_r.
        apply (upstream_frames leakyBufSize); assumption.
      + apply (upstream_no_panic leakyBufSize); assumption.
    - destruct (tcpHandler_not_established env Hn) as (-> & -> & _).
      split; [reflexivity|].
      unfold tcpHandler. 
      destruct (req_addr env); [|discriminate].
      destruct (reply_err env); [discriminate|].
      destruct (client_err env); [discriminate|].
      destruct (pipeline_err env); [discriminate|].
      destruct (first_send_err env); [discriminate|].
      destruct (upstream (up_io env) (pooled env)) eqn:E. simpl.
      change o with (snd (l, o)). rewrite <- E.
      apply (upstream_no_panic leakyBufSize); assumption. }
  destruct Hframes as [Hf Hp]. repeat split; try assumption.
  rewrite Hf. apply concat_filter_nonempty.
Qed.

Lemma example_tcp_contract : reader_contract example_tcp.
Proof.
  split; [vm_compute; reflexivity|].
  repeat (apply Forall_cons; [apply Nat.leb_le; vm_compute; reflexivity|]).
  apply Forall_nil.
Qed.

Lemma tcp_upstream_preserves_bytes_witness :
  reader_contract example_tcp
  /\ tl (stream_sends (main_trace (tcpHandler example_tcp)))
     = [hello; world].
Proof.
  pose proof example_tcp_contract as Hc.
  split; [exact Hc|].
  destruct (tcp_upstream_preserves_bytes example_tcp Hc) as (H & _ & _).
  rewrite H. reflexivity.
Defined.

Lemma spawned_is_downstream (env : tcp_env) (x : list event * outcome) :
  spawned (tcpHandler env) = Some x -> x = downstream (down_io env).
Proof.
  unfold tcpHandler.
  destruct (req_addr env); [|discriminate].
  destruct (reply_err env); [discriminate|].
  destruct (client_err env); [discriminate|].
  destruct (pipeline_err env); [discriminate|].
  destruct (first_send_err env); [discriminate|].
  destruct (upstream (up_io env) (pooled env)). simpl. congruence.
Qed.

(** C2: in every TCP session the payloads handed to the client socket by
    the downstream goroutine are, one for one and in order, the payloads of
    the frames received on the stream; when no write failed, these are the
    bytes the socket took. *)
Theorem tcp_downstream_preserves_frames (env : tcp_env)
    (dtr : list event) (o : outcome) :
  spawned (tcpHandler env) = Some (dtr, o) ->
  conn_writes dtr = stream_recvs dtr
  /\ concat (conn_writes dtr) = concat (stream_recvs dtr)
  /\ (conn_unwritten dtr = [] -> concat (conn_written dtr)
                                 = concat (stream_recvs dtr)).
Proof.
  intros Hs. apply spawned_is_downstream in Hs.
  assert (Hd : dtr = fst (downstream (down_io env))) by (now rewrite <- Hs).
  subst dtr. pose proof (downstream_frames (down_io env)) as Hf.
  destruct (downstream_written (down_io env)) as [Hw _].
  repeat split.
  - exact Hf.
  - now rewrite Hf.
  - intros Hu. rewrite <- Hf, Hw, Hu, app_nil_r. reflexivity.
Qed.

Lemma tcp_downstream_preserves_frames_witness :
  spawned (tcpHandler example_tcp)
  = Some (downstream (down_io example_tcp))
  /\ conn_writes (fst (downstream (down_io example_tcp))) = [world].
Proof.
  assert (Hs : spawned (tcpHandler example_tcp)
               = Some (fst (downstream (down_io example_tcp)),
                       snd (downstream (down_io example_tcp))))
    by reflexivity.
  split; [reflexivity|].
  destruct (tcp_downstream_preserves_frames example_tcp _ _ Hs) as (H & _).
  rewrite H. reflexivity.
Defined.

(** A run that ends before the copy loop never touches the pool. *)
Lemma tcp_no_buffer_before_loop (env : tcp_env) :
  ~ established env ->
  leaky_gets (main_trace (tcpHandler env)) = []
  /\ leaky_puts (main_trace (tcpHandler env)) = [].
Proof.
  intros Hn. unfold tcpHandler.
  destruct (req_addr env) as [addr|e] eqn:H1; [|simpl; auto].
  destruct (reply_err env) eqn:H2; [simpl; auto|].
  destruct (client_err env) eqn:H3; [simpl; auto|].
  destruct (pipeline_err env) eqn:H4; [simpl; auto|].
  destruct (first_send_err env) eqn:H5; [simpl; auto|].
  exfalso. apply Hn. unfold established. eauto 10.
Qed.

(** C5: an established TCP session takes one buffer from the pool, before
    its first read of the client, holds it across the whole copy loop, and
    gives it back once, right after the loop, whenever the session
    function is left (read error or end of input, send error, panic); a
    session that never leaves the loop still holds it. *)
Theorem tcp_buffer_checked_out_once (env : tcp_env) :
  established env ->
  let r := tcpHandler env in
  let len := length (pooled env) in
  leaky_gets (main_trace r) = [len]
  /\ (main_outcome r <> Blocked -> leaky_puts (main_trace r) = [len])
  /\ (main_outcome r = Blocked -> leaky_puts (main_trace r) = [])
  /\ (existsb up_breaks (up_io env) = true -> main_outcome r <> Blocked)
  /\ exists pre loop post,
       main_trace r = pre ++ LeakyGet len :: loop ++ post
       /\ conn_reads pre = [] /\ conn_reads post = []
       /\ stream_sends post = []
       /\ leaky_gets loop = [] /\ leaky_puts loop = []
       /\ (main_outcome r <> Blocked ->
           exists post', post = LeakyPut len :: post').
Proof.
  intros He r len. subst r len.
  destruct (established_run env He) as (addr & _ & ->).
  cbn [main_trace main_outcome].
  destruct (prelude_quiet env addr) as (Hr & Hs & Hg & Hp & _).
  destruct (upstream_pool (up_io env) (pooled env)) as [Hlg Hlp].
  set (o := snd (upstream (up_io env) (pooled env))).
  destruct (unwind_cleanup_quiet o env addr) as (Hcr & Hcs & Hcg & _).
  change (LeakyGet ?n :: ?l) with ([LeakyGet n] ++ l).
  rewrite !leaky_gets_app, !leaky_puts_app, Hg, Hp, Hlg, Hlp, Hcg.
  rewrite unwind_cleanup_puts.
  repeat split.
  - intros Ho. destruct o; [reflexivity|congruence|reflexivity].
  - intros Ho. rewrite Ho. reflexivity.
  - apply upstream_exits.
  - exists (tcp_prelude env addr), (fst (upstream (up_io env) (pooled env))),
      (unwind o (tcp_cleanup env addr)).
    repeat split; try assumption.
    intros Ho. unfold tcp_cleanup.
    destruct o; [eexists; reflexivity|congruence|eexists; reflexivity].
Qed.

Lemma example_tcp_established : established example_tcp.
Proof. unfold established. simpl. eauto 10. Qed.

Lemma tcp_buffer_checked_out_once_witness :
  established example_tcp
  /\ leaky_gets (main_trace (tcpHandler example_tcp)) = [leakyBufSize]
  /\ leaky_puts (main_trace (tcpHandler example_tcp)) = [leakyBufSize].
Proof.
  split; [exact example_tcp_established|].
  destruct (tcp_buffer_checked_out_once example_tcp example_tcp_established)
    as (Hg & Hp & _).
  split.
  - rewrite Hg. reflexivity.
  - rewrite Hp; [reflexivity|discriminate].
Defined.

(** C6: in an established TCP session the error lines printed by the two
    copy directions are exactly the lines the answers of the outside world
    call for.  The downstream goroutine, until the first failed [Recv] or
    write ends it, prints one line "stream recv err" when the [Recv] fails
    with an error that is neither the end of the stream nor met under a
    canceled context, one line "conn write err" when the write fails with
    a message that does not tell of a closed connection, and nothing else;
    the upstream loop, under the contract of [conn.Read], prints one line
    "stream send err" when a [Send] is refused and nothing else, a failed
    read in particular leaving no line.  Each direction therefore prints at
    most one line, and every line stands next to the error in the trace
    that [claimed_logs] asks a line for. *)
Theorem tcp_error_logging (env : tcp_env) :
  established env ->
  error_logs (main_trace (tcpHandler env))
  = claimed_logs (main_trace (tcpHandler env))
  /\ (exists dtr o,
        spawned (tcpHandler env) = Some (dtr, o)
        /\ error_logs dtr = claimed_logs dtr
        /\ error_logs dtr
           = flat_map down_turn_logs (played down_breaks (down_io env))
        /\ length (error_logs dtr) <= 1)
  /\ (reader_contract env ->
      error_logs (main_trace (tcpHandler env))
      = flat_map up_turn_logs (played up_breaks (up_io env))
      /\ length (error_logs (main_trace (tcpHandler env))) <= 1).
Proof.
  intros He.
  destruct (established_run env He) as (addr & _ & ->).
  cbn [main_trace spawned].
  destruct (prelude_quiet env addr) as (_ & _ & _ & _ & He1 & He2).
  destruct (unwind_cleanup_quiet
              (snd (upstream (up_io env) (pooled env))) env addr)
    as (_ & _ & _ & Hc1 & Hc2).
  assert (Hmain :
    error_logs (tcp_prelude env addr
                  ++ LeakyGet (length (pooled env))
                  :: fst (upstream (up_io env) (pooled env))
                  ++ unwind (snd (upstream (up_io env) (pooled env)))
                       (tcp_cleanup env addr))
    = error_logs (fst (upstream (up_io env) (pooled env)))).
  { change (LeakyGet ?n :: ?l) with ([LeakyGet n] ++ l).
    rewrite !error_logs_app, He1, Hc1. simpl. apply app_nil_r. }
  split; [|split].
  - rewrite Hmain.
    change (LeakyGet ?n :: ?l) with ([LeakyGet n] ++ l).
    rewrite !claimed_logs_app, He2, Hc2.
    simpl. rewrite !app_nil_r. apply upstream_logs.
  - exists (fst (downstream (down_io env))), (snd (downstream (down_io env))).
    split; [now destruct (downstream (down_io env))|].
    split; [apply downstream_logs|].
    split; [apply downstream_turn_logs|].
    rewrite downstream_turn_logs. apply one_line_at_most.
    + intros [e c|p c [e|]] Hb; try discriminate; reflexivity.
    + intros [e c|p c [e|]]; simpl;
        [destruct (is_EOF e || is_Canceled c)
        |destruct (Contains (Error e) closed_conn_msg)|]; simpl; lia.
  - intros [Hlen Hfit]. rewrite Hmain.
    rewrite (upstream_turn_logs leakyBufSize _ _ Hfit Hlen).
    split; [reflexivity|]. apply one_line_at_most.
    + intros t Hb. unfold up_breaks, up_turn_logs, nonempty in *.
      destruct (0 <? length (rd_data t)); [|reflexivity].
      destruct (snd_err t); [discriminate|reflexivity].
    + intros t. unfold up_turn_logs.
      destruct (nonempty (rd_data t)); [destruct (snd_err t)|]; simpl; lia.
Qed.

Lemma example_tcp_loud_ok :
  established example_tcp_loud /\ reader_contract example_tcp_loud.
Proof.
  split; [unfold established; simpl; eauto 10|].
  split; [vm_compute; reflexivity|].
  repeat (apply Forall_cons; [apply Nat.leb_le; vm_compute; reflexivity|]).
  apply Forall_nil.
Qed.

Lemma tcp_error_logging_witness :
  established example_tcp_loud
  /\ error_logs (main_trace (tcpHandler example_tcp_loud))
     = [Errorf "stream send err: %s" "transport is closing"]
  /\ exists dtr o,
       spawned (tcpHandler example_tcp_loud) = Some (dtr, o)
       /\ error_logs dtr
          = [Errorf "stream recv err: %s" "rpc error: code = Unavailable"].
Proof.
  destruct example_tcp_loud_ok as [He Hc].
  split; [exact He|].
  destruct (tcp_error_logging example_tcp_loud He)
    as (_ & (dtr & o & Hs & _ & Hd & _) & Hu).
  destruct (Hu Hc) as [Hm _].
  split.
  - rewrite Hm. reflexivity.
  - exists dtr, o. split; [exact Hs|]. rewrite Hd. reflexivity.
Defined.

(** A write to the client that fails for another reason than a closed
    connection leaves its line, and a failed read of the client none. *)
Lemma example_tcp_broken_pipe_logs :
  error_logs (main_trace (tcpHandler example_tcp_broken_pipe)) = []
  /\ In (ConnRead [] (Some closed_err))
        (main_trace (tcpHandler example_tcp_broken_pipe))
  /\ option_map (fun r => error_logs (fst r))
       (spawned (tcpHandler example_tcp_broken_pipe))
     = Some [Errorf "conn write err: %s" "write: broken pipe"].
Proof.
  split; [vm_compute; reflexivity|]. split; [vm_compute; tauto|].
  vm_compute. reflexivity.
Qed.

(** C9: when the destination address parses, the second call of the
    session writes the fixed ten-byte success reply to the client; nothing
    follows when that write fails, and every step of the remote leg in the
    trace comes after a reply that the client socket accepted. *)
Theorem tcp_reply_before_remote_leg (env : tcp_env) (addr : bytes) :
  req_addr env = inl addr ->
  let r := tcpHandler env in
  (exists rest,
      main_trace r
      = GetReqAddr (inl addr) :: ConnWrite connect_reply (reply_err env) :: rest
      /\ (reply_err env <> None -> rest = [] /\ spawned r = None))
  /\ (forall pre ev post,
        main_trace r = pre ++ ev :: post -> remote_leg ev = true ->
        exists pre', pre = GetReqAddr (inl addr)
                           :: ConnWrite connect_reply None :: pre')
  /\ connect_reply = [x05; x00; x00; x01; x00; x00; x00; x00; x00; x00].
Proof.
  intros Ha r.
  assert (H1 : exists rest,
      main_trace r
      = GetReqAddr (inl addr) :: ConnWrite connect_reply (reply_err env) :: rest
      /\ (reply_err env <> None -> rest = [] /\ spawned r = None)).
  { subst r. unfold tcpHandler. rewrite Ha.
    destruct (reply_err env); [eexists; split; [reflexivity|auto]|].
    destruct (client_err env);
      [eexists; split; [reflexivity|congruence]|].
    destruct (pipeline_err env);
      [eexists; split; [reflexivity|congruence]|].
    destruct (first_send_err env);
      [eexists; split; [reflexivity|congruence]|].
    destruct (upstream (up_io env) (pooled env)).
    eexists; split; [reflexivity|congruence]. }
  split; [exact H1|split].
  - destruct H1 as (rest & Htr & Hrest).
    intros pre ev post Heq Hev. rewrite Htr in Heq.
    destruct pre as [|e1 pre]; simpl in Heq.
    { injection Heq as <- _. discriminate. }
    injection Heq as <- Heq.
    destruct pre as [|e2 pre]; simpl in Heq.
    { injection Heq as <- _. discriminate. }
    injection Heq as <- Heq.
    destruct (reply_err env) eqn:Hre.
    + destruct Hrest as [-> _]; [discriminate|]. destruct pre; discriminate.
    + eauto.
  - reflexivity.
Qed.

Lemma tcp_reply_before_remote_leg_witness :
  req_addr example_tcp_no_stream = inl example_addr
  /\ exists rest,
       main_trace (tcpHandler example_tcp_no_stream)
       = GetReqAddr (inl example_addr) :: ConnWrite connect_reply None :: rest.
Proof.
  split; [reflexivity|].
  destruct (tcp_reply_before_remote_leg example_tcp_no_stream example_addr
              eq_refl) as ((rest & H & _) & _).
  exists rest. exact H.
Defined.

(** C10: in the upstream loop every read that returns bytes together with
    an error is followed at once by the [Send] of exactly these bytes, so
    the last partial chunk reaches the stream before the loop can end. *)
Theorem tcp_partial_read_is_sent (env : tcp_env)
    (pre post : list event) (d : bytes) (e : error) :
  reader_contract env ->
  main_trace (tcpHandler env) = pre ++ ConnRead d (Some e) :: post ->
  d <> [] ->
  exists r post', post = StreamSend d r :: post'.
Proof.
  intros [Hlen Hfit] Htr Hd.
  destruct (established_dec env) as [He|Hn].
  - destruct (established_run env He) as (addr & _ & Hrun).
    rewrite Hrun in Htr. cbn [main_trace] in Htr.
    set (o := snd (upstream (up_io env) (pooled env))) in *.
    change (LeakyGet ?n :: ?l) with ([LeakyGet n] ++ l) in Htr.
    rewrite app_assoc in Htr.
    apply (split_middle is_conn_read) in Htr; [| | |reflexivity].
    + destruct Htr as (p & q & Hloop & -> & _).
      destruct (upstream_read_then_send leakyBufSize _ _ _ _ _ _
                  Hfit Hlen Hloop Hd) as (r & post' & ->).
      exists r, (post' ++ unwind o (tcp_cleanup env addr)). reflexivity.
    + destruct (tcp_debug_is_debug "tcp estab" env (Addr_String addr))
        as (f & args & Hdbg).
      unfold tcp_prelude. simpl. rewrite Hdbg. reflexivity.
    + destruct (tcp_debug_is_debug "tcp close" env (Addr_String addr))
        as (f & args & Hdbg).
      unfold tcp_cleanup. destruct o; simpl; rewrite ?Hdbg; reflexivity.
  - destruct (tcpHandler_not_established env Hn) as (Hr & _).
    rewrite Htr, conn_reads_app in Hr. simpl in Hr.
    destruct (conn_reads pre); discriminate.
Qed.

Lemma example_tcp_second_read :
  main_trace (tcpHandler example_tcp)
  = firstn 10 (main_trace (tcpHandler example_tcp))
      ++ ConnRead world (Some io_EOF)
      :: skipn 11 (main_trace (tcpHandler example_tcp)).
Proof. vm_compute. reflexivity. Qed.

Lemma tcp_partial_read_is_sent_witness :
  reader_contract example_tcp
  /\ world <> []
  /\ exists pre post r post',
       main_trace (tcpHandler example_tcp)
       = pre ++ ConnRead world (Some io_EOF) :: post
       /\ post = StreamSend world r :: post'.
Proof.
  pose proof example_tcp_contract as Hc.
  assert (Hw : world <> []) by discriminate.
  split; [exact Hc|]. split; [exact Hw|].
  set (pre := firstn 10 (main_trace (tcpHandler example_tcp))).
  set (post := skipn 11 (main_trace (tcpHandler example_tcp))).
  pose proof example_tcp_second_read as Htr. fold pre post in Htr.
  destruct (tcp_partial_read_is_sent example_tcp pre post world io_EOF
              Hc Htr Hw) as (r & post' & Hp).
  exists pre, post, r, post'. split; assumption.
Defined.

(** ** The reply to UDP ASSOCIATE *)

Lemma uint16_int16 (p : Z) :
  (0 <= p <= 65535)%Z -> uint16 (int16 p) = p.
Proof.
  intros Hp. unfold uint16, int16.
  rewrite Zminus_mod_idemp_l.
  replace (p + 32768 - 32768)%Z with p by lia.
  apply Z.mod_small. lia.
Qed.

Lemma Z_of_byte_of_Z (x : Z) : Z_of_byte (byte_of_Z x) = (x mod 256)%Z.
Proof.
  unfold Z_of_byte, byte_of_Z.
  assert (Hr : (0 <= x mod 256 < 256)%Z) by (apply Z.mod_pos_bound; lia).
  destruct (Byte.of_N (Z.to_N (x mod 256))) as [b|] eqn:E.
  - apply Byte.to_of_N in E. rewrite E. lia.
  - apply Byte.of_N_None_iff in E. lia.
Qed.

Lemma byte_of_Z_mod (x : Z) : byte_of_Z (x mod 256) = byte_of_Z x.
Proof. unfold byte_of_Z. now rewrite Z.mod_mod by lia. Qed.

Lemma PutUint16_big_endian (p : Z) :
  PutUint16 p = [byte_of_Z (p / 256); byte_of_Z (p mod 256)].
Proof.
  unfold PutUint16. rewrite Z.shiftr_div_pow2 by lia.
  change (2 ^ 8)%Z with 256%Z. now rewrite byte_of_Z_mod.
Qed.

Lemma associate_reply_bytes (p : Z) :
  (0 <= p <= 65535)%Z ->
  associate_reply p
  = Some [x05; x00; x00; x01; x00; x00; x00; x00;
          byte_of_Z (p / 256); byte_of_Z (p mod 256)].
Proof.
  intros Hp. unfold associate_reply, binary_Write_int16.
  rewrite (uint16_int16 p Hp), PutUint16_big_endian. reflexivity.
Qed.

(** ** Traces of the UDP loop *)

Lemma step_trace (st : udp_state) (who : nat) :
  exists evs, trace (step st who) = trace st ++ evs
              /\ forallb loop_event evs = true.
Proof.
  assert (Hnil : exists evs, trace st = trace st ++ evs
                             /\ forallb loop_event evs = true)
    by (exists []; split; [now rewrite app_nil_r|reflexivity]).
  destruct who as [|k]; simpl.
  - unfold main_step. destruct (main_at st); [| |exact Hnil|exact Hnil].
    + destruct (read_from _ _ _) as [[[[t data] addr] err] rest].
      cbn [trace]. eexists; split; [reflexivity|].
      destruct (0 <? length data); reflexivity.
    + destruct (err_cell st); [|exact Hnil].
      cbn. eexists; split; [reflexivity|].
      unfold udp_defers. destruct (close_err st); reflexivity.
  - unfold task_step. destruct (dead st); [exact Hnil|].
    destruct (nth_error (tasks st) k) as [t|]; [|exact Hnil].
    destruct (t_pc t); try exact Hnil.
    + unfold panic.
      destruct (slice _ _ _); [|destruct (main_at st)]; exact Hnil.
    + cbn. eexists; split; reflexivity.
    + destruct (hd None (send_errs st)); cbn; eexists; split; reflexivity.
    + unfold panic.
      destruct (slice _ _ _); [|destruct (main_at st); exact Hnil].
      destruct (t_turn t =? turn st); destruct (hd None (send_errs st));
        cbn; eexists; split; reflexivity.
Qed.

Lemma exec_trace (sched : list nat) :
  forall st, exists evs, trace (exec sched st) = trace st ++ evs
                         /\ forallb loop_event evs = true.
Proof.
  induction sched as [|w sched IH]; intros st; simpl.
  - exists []. split; [now rewrite app_nil_r|reflexivity].
  - destruct (step_trace st w) as (e1 & H1 & F1).
    destruct (IH (step st w)) as (e2 & H2 & F2).
    exists (e1 ++ e2). rewrite H2, H1, app_assoc. split; [reflexivity|].
    rewrite forallb_app, F1, F2. reflexivity.
Qed.

Lemma loop_events_no_write (evs : list event) :
  forallb loop_event evs = true -> conn_writes evs = [].
Proof.
  induction evs as [|ev evs IH]; [reflexivity|]. simpl.
  intros H. apply andb_true_iff in H. destruct H as [Hev H].
  rewrite (IH H). destruct ev; try discriminate; reflexivity.
Qed.

(** C8: for every bound port from 0 to 65535 the only bytes [udpHandler]
    writes to the client are the ten bytes 05 00 00 01, four zero bytes,
    and the two bytes of the port, high byte first: the passage through
    [int16] loses nothing, for ports from 32768 on as well. *)
Theorem udp_associate_reply_port (env : udp_env) (a : bytes)
    (sched : list nat) :
  u_req_addr env = inl a -> u_listen_err env = None ->
  (0 <= u_port env <= 65535)%Z ->
  let hi := byte_of_Z (u_port env / 256) in
  let lo := byte_of_Z (u_port env mod 256) in
  conn_writes (udpHandler env sched)
  = [[x05; x00; x00; x01; x00; x00; x00; x00; hi; lo]]
  /\ (256 * Z_of_byte hi + Z_of_byte lo = u_port env)%Z.
Proof.
  intros Ha Hl Hp hi lo. split.
  - unfold udpHandler, udp_setup. rewrite Ha, Hl.
    rewrite (associate_reply_bytes _ Hp). fold hi lo.
    destruct (u_reply_err env); [reflexivity|].
    destruct (u_client_err env); [reflexivity|].
    destruct (u_pipeline_err env); [reflexivity|].
    match goal with |- context [exec sched ?st] =>
      destruct (exec_trace sched st) as (evs & -> & Hev) end.
    cbn [trace]. rewrite conn_writes_app, (loop_events_no_write _ Hev).
    reflexivity.
  - subst hi lo. rewrite !Z_of_byte_of_Z.
    rewrite Z.mod_mod by lia.
    rewrite (Z.mod_small (u_port env / 256)).
    + pose proof (Z.div_mod (u_port env) 256). lia.
    + split; [apply Z.div_pos; lia|].
      apply Z.div_lt_upper_bound; lia.
Qed.

Lemma udp_associate_reply_port_witness :
  u_req_addr example_udp = inl [] /\ u_listen_err example_udp = None
  /\ (0 <= u_port example_udp <= 65535)%Z
  /\ conn_writes (udpHandler example_udp [])
     = [[x05; x00; x00; x01; x00; x00; x00; x00; x9c; x40]].
Proof.
  assert (Hp : (0 <= u_port example_udp <= 65535)%Z) by (simpl; lia).
  split; [reflexivity|]. split; [reflexivity|]. split; [exact Hp|].
  destruct (udp_associate_reply_port example_udp [] [] eq_refl eq_refl Hp)
    as [H _].
  rewrite H. reflexivity.
Defined.

(** ** The read deadline of the datagram socket *)














(** What the set-up hands to the loop. *)
Lemma udp_setup_entry (env : udp_env) (st0 : udp_state) :
  udp_setup env = inr st0 ->
  deadline st0 = (u_now env + Second * 600)%Z
  /\ close_err st0 = u_close_send_err env
  /\ tasks st0 = []
  /\ deadlines (trace st0) = [(u_now env + Second * 600)%Z]
  /\ Forall (read_ok (u_now env + Second * 600)%Z) (trace st0).
Proof.
  unfold udp_setup.
  destruct (u_req_addr env); [|discriminate].
  destruct (u_listen_err env); [discriminate|].
  destruct (associate_reply (u_port env)); [|discriminate].
  destruct (u_reply_err env); [discriminate|].
  destruct (u_client_err env); [discriminate|].
  destruct (u_pipeline_err env); [discriminate|].
  intros H. injection H as <-. cbn. repeat split. repeat constructor.
Qed.



Lemma dead_step (st : udp_state) (who : nat) :
  dead st = true -> step st who = st.
Proof.
  intros Hd. destruct who; simpl.
  - unfold main_step. unfold dead in Hd.
    destruct (main_at st); try discriminate; reflexivity.
  - unfold task_step. now rewrite Hd.
Qed.

Lemma dead_exec (sched : list nat) :
  forall st, dead st = true -> exec sched st = st.
Proof.
  induction sched as [|w sched IH]; intros st Hd; simpl; [reflexivity|].
  rewrite (dead_step st w Hd). now apply IH.
Qed.

Lemma crashed_replace_nth (k : nat) (t : task) :
  forall ts, has_crashed t = false ->
  existsb has_crashed (replace_nth k t ts) = true ->
  existsb has_crashed ts = true.
Proof.
  induction k as [|k IH]; intros [|y ts] Ht H; simpl in *;
    try discriminate.
  - rewrite Ht in H. simpl in H. rewrite H. apply orb_true_r.
  - apply orb_true_iff in H. destruct H as [H|H].
    + now rewrite H.
    + rewrite (IH ts Ht H). apply orb_true_r.
Qed.

Lemma replace_nth_crashed (k : nat) (t y : task) :
  forall ts, nth_error ts k = Some y -> has_crashed t = true ->
  existsb has_crashed (replace_nth k t ts) = true.
Proof.
  induction k as [|k IH]; intros [|z ts] Hn Ht; simpl in *;
    try discriminate.
  - now rewrite Ht.
  - rewrite (IH ts Hn Ht). apply orb_true_r.
Qed.

(** A goroutine that has panicked is found only in a process that has
    ended. *)
Lemma crashed_step (st : udp_state) (who : nat) :
  (existsb has_crashed (tasks st) = true -> dead st = true) ->
  existsb has_crashed (tasks (step st who)) = true ->
  dead (step st who) = true.
Proof.
  intros Hinv. destruct (dead st) eqn:Hd.
  { rewrite (dead_step st who Hd). now rewrite Hd. }
  assert (Hno : existsb has_crashed (tasks st) = false).
  { destruct (existsb has_crashed (tasks st)); [|reflexivity].
    now specialize (Hinv eq_refl). }
  clear Hinv. destruct who as [|k]; simpl.
  - unfold main_step. unfold dead in Hd.
    destruct (main_at st) eqn:Hm; try discriminate.
    + destruct (read_from _ _ _) as [[[[t data] addr] err] rest].
      cbn [tasks]. destruct (0 <? length data).
      * rewrite existsb_app, Hno. discriminate.
      * rewrite Hno. discriminate.
    + destruct (err_cell st); cbn [tasks set_main emit]; rewrite Hno;
        discriminate.
    + rewrite Hno. discriminate.
  - unfold task_step. rewrite Hd.
    destruct (nth_error (tasks st) k) as [t|] eqn:Hk; [|now rewrite Hno].
    assert (Hrep : forall st' n d p,
      tasks st' = tasks st -> has_crashed (Task n d (t_turn t) p) = false ->
      existsb has_crashed (tasks (set_tasks
        (replace_nth k (Task n d (t_turn t) p) (tasks st')) st')) = true ->
      dead (set_tasks
        (replace_nth k (Task n d (t_turn t) p) (tasks st')) st') = true).
    { intros st' n d p Ht Hp H. cbn [tasks set_tasks] in H.
      apply crashed_replace_nth in H; [|exact Hp].
      rewrite Ht, Hno in H. discriminate. }
    assert (Hpanic : dead (panic k t st) = true).
    { unfold panic, dead. destruct (main_at st) eqn:Hm; cbn; rewrite ?Hm;
        try reflexivity.
      now apply (replace_nth_crashed k _ t). }
    unfold goto.
    destruct (t_pc t); try (now rewrite Hno).
    + destruct (slice _ _ _); [|intros _; exact Hpanic].
      now apply (Hrep st).
    + now apply Hrep.
    + now apply Hrep.
    + destruct (first st); now apply (Hrep st).
    + now apply Hrep.
    + destruct (hd None (send_errs st)); now apply Hrep.
    + destruct (slice _ _ _); [|intros _; exact Hpanic].
      destruct (t_turn t =? turn st); now apply Hrep.
Qed.

(** In every run, once a per-datagram goroutine has panicked nothing moves
    any more: neither the loop, nor another goroutine, nor a deferred
    call. *)
Lemma panic_ends_process (env : udp_env) (st0 : udp_state)
    (sched : list nat) :
  udp_setup env = inr st0 ->
  existsb has_crashed (tasks (exec sched st0)) = true ->
  forall more, exec more (exec sched st0) = exec sched st0.
Proof.
  intros Hs Hc more. apply dead_exec. revert Hc.
  assert (H0 : existsb has_crashed (tasks st0) = true -> dead st0 = true).
  { revert Hs. unfold udp_setup.
    destruct (u_req_addr env); [|discriminate].
    destruct (u_listen_err env); [discriminate|].
    destruct (associate_reply (u_port env)); [|discriminate].
    destruct (u_reply_err env); [discriminate|].
    destruct (u_client_err env); [discriminate|].
    destruct (u_pipeline_err env); [discriminate|].
    intros H. injection H as <-. discriminate. }
  clear Hs. revert st0 H0.
  induction sched as [|w sched IH]; intros st0 H0; [exact H0|].
  simpl. apply IH. now apply crashed_step.
Qed.









Lemma exec_app (a b : list nat) (st : udp_state) :
  exec (a ++ b) st = exec b (exec a st).
Proof. apply fold_left_app. Qed.









(** A panic ends the process and with it the association, with nothing
    torn down: the goroutine of a datagram of two bytes moves only after
    the next read of the loop has timed out, and the loop never gets to
    its deferred calls. *)
Lemma udp_panic_leaves_nothing_torn_down :
  main_at (exec [0; 0; 0; 1; 0; 0] (entry_state example_udp_short))
  = MainKilled
  /\ In (ReadFrom (600 * Second) [] "" (Some timeout))
        (udpHandler example_udp_short [0; 0; 0; 1; 0; 0])
  /\ torn_down (udpHandler example_udp_short [0; 0; 0; 1; 0; 0]) = false
  /\ torn_down (udpHandler example_udp_short [0; 0; 0; 0]) = true.
Proof.
  split; [vm_compute; reflexivity|]. split; [vm_compute; tauto|].
  split; vm_compute; reflexivity.
Qed.

(** ** Datagrams handled one after another *)

Lemma nth_error_app_len {A : Type} (l : list A) (x : A) :
  nth_error (l ++ [x]) (length l) = Some x.
Proof. induction l; simpl; auto. Qed.

Lemma replace_nth_app_len {A : Type} (l : list A) (x y : A) :
  replace_nth (length l) y (l ++ [x]) = l ++ [y].
Proof. induction l; simpl; [reflexivity|]. now rewrite IHl. Qed.

Lemma fill_fits (data buff : bytes) :
  length data <= length buff ->
  fill data buff = data ++ skipn (length data) buff.
Proof.
  intros H. unfold fill. apply firstn_all2.
  rewrite length_app, length_skipn. lia.
Qed.

Lemma firstn_exact {A : Type} (a l : list A) (n : nat) :
  length a = n -> firstn n (a ++ l) = a.
Proof.
  intros <-. replace (length a) with (length a + 0) by lia.
  rewrite firstn_app_2. simpl. apply app_nil_r.
Qed.

Lemma skipn_exact {A : Type} (a l : list A) (n : nat) :
  length a = n -> skipn n (a ++ l) = l.
Proof.
  intros <-. rewrite skipn_app, skipn_all, Nat.sub_diag. reflexivity.
Qed.

(** The views a goroutine takes of the shared array right after a
    well-formed datagram was read into it. *)
Lemma views_of_dgram (d : dgram) (b : bytes) :
  length (dg_hdr d) = 3 -> length (dg_pkt d) <= length b ->
  let b' := fill (dg_pkt d) b in
  slice b' 3 (length (dg_pkt d)) = Some (dg_addr d ++ dg_data d)
  /\ firstn (length (dg_addr d)) (skipn 3 b') = dg_addr d
  /\ slice b' (3 + length (dg_addr d)) (length (dg_pkt d)) = Some (dg_data d).
Proof.
  intros Hh Hle b'. subst b'. rewrite (fill_fits _ _ Hle).
  set (tail := skipn (length (dg_pkt d)) b).
  assert (Hlen : length (dg_pkt d)
                 = 3 + length (dg_addr d) + length (dg_data d))
    by (unfold dg_pkt; rewrite !length_app; lia).
  assert (Hs3 : skipn 3 (dg_pkt d ++ tail) = dg_addr d ++ dg_data d ++ tail).
  { unfold dg_pkt. rewrite <- !app_assoc. now apply skipn_exact. }
  unfold slice. rewrite length_app.
  replace (3 <=? length (dg_pkt d)) with true
    by (symmetry; apply Nat.leb_le; lia).
  replace (3 + length (dg_addr d) <=? length (dg_pkt d)) with true
    by (symmetry; apply Nat.leb_le; lia).
  replace (length (dg_pkt d) <=? length (dg_pkt d) + length tail) with true
    by (symmetry; apply Nat.leb_le; lia).
  cbn [andb]. rewrite Hs3. repeat split.
  - f_equal. rewrite app_assoc. apply firstn_exact.
    rewrite length_app. lia.
  - now apply firstn_exact.
  - replace (skipn (3 + length (dg_addr d)) (dg_pkt d ++ tail))
      with (dg_data d ++ tail).
    + apply f_equal, firstn_exact. lia.
    + unfold dg_pkt. rewrite <- !app_assoc.
      rewrite (app_assoc (dg_hdr d)). symmetry. apply skipn_exact.
      rewrite length_app. lia.
Qed.

Lemma exec_cons (w : nat) (sched : list nat) (st : udp_state) :
  exec (w :: sched) st = exec sched (step st w).
Proof. reflexivity. Qed.

Ltac simp_state :=
  unfold panic, goto, emit, set_main, set_tasks, set_first, set_DSTAddr,
    set_err_cell, pop_send_err;
  cbn [tasks t_pc t_n t_dst t_turn buff first DSTAddr BNDAddr err_cell turn
       main_at pending send_errs deadline close_err trace].

Ltac settle := simp_state; rewrite ?replace_nth_app_len.

Ltac task_turn :=
  rewrite exec_cons; unfold step at 1, task_step, dead; simp_state;
  rewrite nth_error_app_len; settle.

Lemma hd_all_none (se : list (option error)) :
  Forall (eq None) se -> hd None se = None /\ Forall (eq None) (tl se).
Proof.
  intros H. destruct H as [|x l Hx Hl]; simpl; auto.
Qed.

(** One datagram under the serial schedule: the state after the turn of
    the loop that reads it and the seven steps of its goroutine. *)
Lemma serial_round_state (st : udp_state) (d : dgram) (rest : list udp_read) :
  main_at st = MainRead -> pending st = to_read d :: rest ->
  well_formed (length (buff st)) (deadline st) d ->
  Forall (eq None) (send_errs st) ->
  exec (0 :: 0 :: repeat (S (length (tasks st))) 7) st
  = UdpState (fill (dg_pkt d) (buff st)) true (Addr_String (dg_addr d))
      (dg_src d) None (S (turn st)) MainRead
      (tasks st ++ [Task (length (dg_pkt d)) (length (dg_addr d))
                      (S (turn st)) Finished])
      rest
      (if first st then tl (send_errs st) else tl (tl (send_errs st)))
      (deadline st) (close_err st)
      (trace st
         ++ [ReadFrom (dg_at d) (dg_pkt d) (dg_src d) None; GoSpawn;
             Debugf "udp %q --> %q" [dg_src d; Addr_String (dg_addr d)]]
         ++ (if first st then []
             else [StreamSend (bytes_of_string (Addr_String (dg_addr d)))
                     None])
         ++ [StreamSend (dg_data d) None]).
Proof.
  destruct st as [b f DS BN e tn m ts pd se dl ce tr]. simp_state.
  intros -> -> (Hh & Hsplit & Hle & Hat) Hse.
  destruct (views_of_dgram d b Hh Hle) as (V1 & V2 & V3).
  assert (Hn : (0 <? length (dg_pkt d)) = true).
  { apply Nat.ltb_lt. unfold dg_pkt. rewrite length_app. lia. }
  destruct (hd_all_none se Hse) as [Hse1 Hse'].
  destruct (hd_all_none _ Hse') as [Hse2 _].
  rewrite exec_cons. unfold step at 1, main_step. simp_state.
  cbn [read_from to_read at_time pkt src_addr rf_err].
  apply Z.ltb_lt in Hat. rewrite Hat.
  rewrite (firstn_all2 (dg_pkt d) Hle), Hn.
  rewrite exec_cons. unfold step at 1, main_step. simp_state.
  cbn [repeat].
  task_turn. rewrite V1. settle. rewrite Hsplit.
  task_turn. rewrite V2.
  task_turn.
  task_turn.
  destruct f.
  - task_turn. rewrite V3, Nat.eqb_refl, Hse1. settle.
    task_turn. task_turn.
    unfold exec. cbn [fold_left]. rewrite <- !app_assoc. reflexivity.
  - task_turn. task_turn. rewrite Hse1. settle.
    task_turn. rewrite V3, Nat.eqb_refl, Hse2. settle.
    unfold exec. cbn [fold_left]. rewrite <- !app_assoc. reflexivity.
Qed.

Lemma serial_sends (ds : list dgram) :
  forall st rest,
  main_at st = MainRead -> pending st = map to_read ds ++ rest ->
  Forall (well_formed (length (buff st)) (deadline st)) ds ->
  Forall (eq None) (send_errs st) ->
  stream_sends (trace (exec (serial (length (tasks st)) (length ds)) st))
  = stream_sends (trace st)
      ++ match ds with
         | d :: _ =>
             if first st then []
             else [bytes_of_string (Addr_String (dg_addr d))]
         | [] => []
         end
      ++ map dg_data ds.
Proof.
  induction ds as [|d ds IH]; intros st rest Hm Hp Hwf Hse.
  - simpl. now rewrite app_nil_r.
  - pose proof (Forall_inv Hwf) as Hd.
    pose proof (Forall_inv_tail Hwf) as Hds.
    cbn [length serial map app] in *.
    change (0 :: 0 :: repeat (S (length (tasks st))) 7
              ++ serial (S (length (tasks st))) (length ds))
      with ((0 :: 0 :: repeat (S (length (tasks st))) 7)
              ++ serial (S (length (tasks st))) (length ds)).
    rewrite exec_app, (serial_round_state st d _ Hm Hp Hd Hse).
    match goal with |- context [exec _ ?s] => set (st1 := s) end.
    assert (Hlen : length (tasks st1) = S (length (tasks st)))
      by (subst st1; cbn [tasks]; rewrite length_app; simpl; lia).
    rewrite <- Hlen.
    rewrite (IH st1 rest); subst st1; cbn [main_at pending buff deadline
      send_errs trace first]; try reflexivity.
    + rewrite !stream_sends_app. simpl.
      destruct ds; destruct (first st); simpl; rewrite <- ?app_assoc;
        reflexivity.
    + now rewrite fill_length.
    + destruct (hd_all_none _ Hse) as [_ H1].
      destruct (hd_all_none _ H1) as [_ H2].
      destruct (first st); assumption.
Qed.

Lemma udp_setup_state (env : udp_env) (st0 : udp_state) :
  udp_setup env = inr st0 ->
  main_at st0 = MainRead /\ pending st0 = u_reads env
  /\ length (buff st0) = UDPMaxSize env /\ first st0 = false
  /\ send_errs st0 = u_send_errs env /\ stream_sends (trace st0) = [].
Proof.
  unfold udp_setup.
  destruct (u_req_addr env); [|discriminate].
  destruct (u_listen_err env); [discriminate|].
  destruct (associate_reply (u_port env)); [|discriminate].
  destruct (u_reply_err env); [discriminate|].
  destruct (u_client_err env); [discriminate|].
  destruct (u_pipeline_err env); [discriminate|].
  intros H. injection H as <-. cbn. rewrite repeat_length. repeat split.
Qed.

(** X9: when every per-datagram goroutine runs to its end before the next
    datagram is read, and the stream accepts every frame, the stream sees
    the destination of the first datagram, then the data of each datagram
    in order. *)
Lemma udp_serial_frames (env : udp_env) (st0 : udp_state) (d : dgram)
    (ds : list dgram) :
  udp_setup env = inr st0 ->
  u_reads env = map to_read (d :: ds) ->
  Forall (well_formed (UDPMaxSize env) (u_now env + Second * 600)%Z)
    (d :: ds) ->
  Forall (eq None) (u_send_errs env) ->
  stream_sends (udpHandler env (serial 0 (S (length ds))))
  = bytes_of_string (Addr_String (dg_addr d)) :: dg_data d :: map dg_data ds.
Proof.
  intros Hs Hr Hwf Hse.
  destruct (udp_setup_state env st0 Hs) as (Hm & Hp & Hb & Hf & Hse0 & Ht).
  destruct (udp_setup_entry env st0 Hs) as (Hd & _ & Hts & _).
  unfold udpHandler. rewrite Hs.
  replace 0 with (length (tasks st0)) by (now rewrite Hts).
  change (S (length ds)) with (length (d :: ds)).
  rewrite (serial_sends (d :: ds) st0 []); try assumption.
  - rewrite Ht, Hf. reflexivity.
  - now rewrite Hp, Hr, app_nil_r.
  - now rewrite Hb, Hd.
  - now rewrite Hse0.
Qed.

Lemma example_udp_serial :
  stream_sends (udpHandler example_udp (serial 0 2))
  = [bytes_of_string "example.com:53"; X1; Y2].
Proof. vm_compute. reflexivity. Qed.

(** X18: on the TCP path the frames sent are the destination, then one
    frame per non-empty chunk read from the client. *)
Lemma tcp_first_frame_is_destination (env : tcp_env) (addr : bytes) :
  req_addr env = inl addr -> established env -> reader_contract env ->
  stream_sends (main_trace (tcpHandler env))
  = bytes_of_string (Addr_String addr)
      :: filter nonempty (conn_reads (main_trace (tcpHandler env))).
Proof.
  intros Ha He [Hlen Hfit].
  destruct (established_run env He) as (addr' & Ha' & ->).
  assert (addr' = addr) by congruence. subst addr'.
  cbn [main_trace].
  destruct (prelude_quiet env addr) as (Hr & Hs & _).
  destruct (unwind_cleanup_quiet
              (snd (upstream (up_io env) (pooled env))) env addr)
    as (Hcr & Hcs & _).
  change (LeakyGet ?n :: ?l) with ([LeakyGet n] ++ l).
  rewrite !stream_sends_app, !conn_reads_app, Hr, Hs, Hcr, Hcs.
  simpl. rewrite !app_nil_r. f_equal.
  apply (upstream_frames leakyBufSize); assumption.
Qed.

(** C3, at an input where the code departs from it: two datagrams are
    read before the goroutine of the first has sent the destination; the
    goroutine of the second finds [first] already set and sends its data,
    so the first frame on the stream is data and the destination comes
    second. *)
Theorem udp_first_frame_can_be_data :
  stream_sends (udpHandler example_udp data_first_schedule)
  = [Y2; bytes_of_string "example.com:53"; Y2].
Proof. vm_compute. reflexivity. Qed.

(** C4, at an input where the code departs from it: both goroutines test
    [first] before either has set it, and the second datagram overwrites
    the shared buffer before the first goroutine has sent its data; the
    stream sees the destination twice and the data of the second datagram
    twice, never the data of the first. *)
Theorem udp_destination_can_be_resent :
  stream_sends (udpHandler example_udp twice_schedule)
  = [bytes_of_string "example.com:53"; Y2;
     bytes_of_string "example.com:53"; Y2].
Proof. vm_compute. reflexivity. Qed.

(** * Further properties of the code *)

(** ** Counting events *)

Lemma count_app (P : event -> bool) (a b : list event) :
  count P (a ++ b) = count P a + count P b.
Proof. unfold count. now rewrite filter_app, length_app. Qed.

Lemma count_none (P Q : event -> bool) (l : list event) :
  forallb Q l = true -> (forall ev, Q ev = true -> P ev = false) ->
  count P l = 0.
Proof.
  intros Hl HPQ. unfold count. induction l as [|ev l IH]; [reflexivity|].
  simpl in *. apply andb_true_iff in Hl. destruct Hl as [Hev Hl].
  rewrite (HPQ ev Hev). now apply IH.
Qed.

Lemma upstream_events (io : list up_turn) :
  forall buff, forallb up_event (fst (upstream io buff)) = true.
Proof.
  induction io as [|t rest IH]; intros buff; [reflexivity|].
  simpl. destruct (0 <? length (rd_data t)).
  - destruct (slice_to _ _); [|reflexivity].
    destruct (snd_err t); [reflexivity|].
    specialize (IH (fill (rd_data t) buff)).
    destruct (upstream rest _). simpl in *. exact IH.
  - destruct (rd_err t); [reflexivity|].
    specialize (IH (fill (rd_data t) buff)).
    destruct (upstream rest _). simpl in *. exact IH.
Qed.

(** ** The upstream loop, further *)

(** X6: a read error that comes together with bytes has no effect on the
    upstream loop: line 130 overwrites it with the result of [Send], so the
    frames sent, the error lines and the way the loop ends are those of
    the same reads without these errors. *)
Theorem tcp_read_error_with_bytes_ignored (io : list up_turn) :
  forall buff,
  stream_sends (fst (upstream (map forget_read_err io) buff))
  = stream_sends (fst (upstream io buff))
  /\ error_logs (fst (upstream (map forget_read_err io) buff))
     = error_logs (fst (upstream io buff))
  /\ snd (upstream (map forget_read_err io) buff) = snd (upstream io buff).
Proof.
  induction io as [|t rest IH]; intros buff; [simpl; auto|].
  cbn [map]. unfold forget_read_err at 1 3 5, nonempty.
  destruct (0 <? length (rd_data t)) eqn:Hn.
  - simpl. rewrite Hn.
    destruct (slice_to _ _); [|simpl; auto].
    destruct (snd_err t); [simpl; auto|].
    specialize (IH (fill (rd_data t) buff)).
    destruct (upstream (map forget_read_err rest) _),
             (upstream rest _).
    simpl in *. destruct IH as (I1 & I2 & I3). repeat split; congruence.
  - simpl. rewrite Hn.
    destruct (rd_err t); [simpl; auto|].
    specialize (IH (fill (rd_data t) buff)).
    destruct (upstream (map forget_read_err rest) _),
             (upstream rest _).
    simpl in *. exact IH.
Qed.




(** X7: an established session whose reads respect the buffer size leaves
    the upstream loop, and [tcpHandler] returns, exactly when some turn
    brings a read error without bytes or a refused [Send]; otherwise it
    stays parked in [conn.Read].  It never panics. *)
Theorem tcp_session_returns_iff_loop_breaks (env : tcp_env) :
  established env -> reader_contract env ->
  main_outcome (tcpHandler env)
  = if existsb up_breaks (up_io env) then Returned else Blocked.
Proof.
  intros He [Hlen Hfit].
  destruct (established_run env He) as (addr & _ & ->).
  cbn [main_outcome].
  pose proof (upstream_no_panic leakyBufSize _ _ Hfit Hlen) as Hp.
  destruct (existsb up_breaks (up_io env)) eqn:Hex.
  - pose proof (upstream_exits _ (pooled env) Hex) as Hb.
    destruct (snd (upstream (up_io env) (pooled env))); congruence.
  - pose proof (upstream_blocks _ (pooled env) Hex) as Hb.
    destruct (snd (upstream (up_io env) (pooled env))); congruence.
Qed.

Lemma tcp_session_returns_iff_loop_breaks_witness :
  established example_tcp /\ reader_contract example_tcp
  /\ main_outcome (tcpHandler example_tcp) = Returned.
Proof.
  split; [exact example_tcp_established|].
  split; [exact example_tcp_contract|].
  rewrite (tcp_session_returns_iff_loop_breaks example_tcp
             example_tcp_established example_tcp_contract).
  reflexivity.
Defined.

Lemma tcp_first_frame_is_destination_witness :
  req_addr example_tcp = inl example_addr
  /\ established example_tcp /\ reader_contract example_tcp
  /\ stream_sends (main_trace (tcpHandler example_tcp))
     = [bytes_of_string "example.com:53"; hello; world].
Proof.
  split; [reflexivity|]. split; [exact example_tcp_established|].
  split; [exact example_tcp_contract|].
  rewrite (tcp_first_frame_is_destination example_tcp example_addr eq_refl
             example_tcp_established example_tcp_contract).
  vm_compute. reflexivity.
Defined.

Lemma downstream_shape (io : list down_turn) :
  exists body,
    fst (downstream io)
    = body ++ match snd (downstream io) with
              | Returned => [ConnClose]
              | _ => []
              end
    /\ forallb down_event body = true
    /\ snd (downstream io)
       = if existsb down_breaks io then Returned else Blocked.
Proof.
  induction io as [|t rest IH].
  - exists []. repeat split.
  - destruct t as [e c|p c [e|]]; simpl.
    + exists (StreamRecv (inr e) c
                :: (if negb (is_EOF e) && negb (is_Canceled c)
                    then [Errorf "stream recv err: %s" (Error e)] else [])).
      split; [reflexivity|].
      destruct (negb (is_EOF e) && negb (is_Canceled c)); split; reflexivity.
    + exists ([StreamRecv (inl p) c; ConnWrite p (Some e)]
                ++ (if negb (Contains (Error e) closed_conn_msg)
                    then [Errorf "conn write err: %s" (Error e)] else [])).
      split; [now rewrite <- app_assoc|].
      destruct (negb (Contains (Error e) closed_conn_msg)); split; reflexivity.
    + destruct IH as (body & Hb & Hev & Ho).
      destruct (downstream rest) as [tr o]. simpl in *.
      exists (StreamRecv (inl p) c :: ConnWrite p None :: body).
      rewrite Hb. repeat split; assumption.
Qed.

Lemma tcpHandler_never_closes_conn (env : tcp_env) :
  count is_conn_close (main_trace (tcpHandler env)) = 0.
Proof.
  destruct (established_dec env) as [He|Hn].
  + destruct (established_run env He) as (addr & _ & ->).
    cbn [main_trace].
    change (LeakyGet ?n :: ?l) with ([LeakyGet n] ++ l).
    rewrite !count_app.
    rewrite (count_none _ up_event _ (upstream_events _ _))
      by (intros []; simpl; congruence).
    destruct (tcp_debug_is_debug "tcp estab" env (Addr_String addr))
      as (f & args & Hd1).
    destruct (tcp_debug_is_debug "tcp close" env (Addr_String addr))
      as (f' & args' & Hd2).
    unfold tcp_prelude, tcp_cleanup. rewrite Hd1, Hd2.
    destruct (snd (upstream (up_io env) (pooled env))); reflexivity.
  + unfold tcpHandler.
    destruct (req_addr env) as [addr|e0] eqn:H1; [|reflexivity].
    destruct (reply_err env) eqn:H2; [reflexivity|].
    destruct (client_err env) eqn:H3; [reflexivity|].
    destruct (pipeline_err env) eqn:H4; [reflexivity|].
    destruct (first_send_err env) eqn:H5; [reflexivity|].
    exfalso. apply Hn. unfold established. eauto 10.
Qed.

(** X8: the downstream goroutine ends exactly when a [Recv] fails or a
    write to the client fails, and then its last call, and only then,
    closes the client socket; while it runs it only receives, writes and
    logs.  The main goroutine of [tcpHandler] never closes the socket. *)
Theorem tcp_downstream_closes_socket_last (env : tcp_env) :
  count is_conn_close (main_trace (tcpHandler env)) = 0
  /\ forall dtr o,
       spawned (tcpHandler env) = Some (dtr, o) ->
       o = (if existsb down_breaks (down_io env) then Returned else Blocked)
       /\ exists body,
            dtr = body ++ (if existsb down_breaks (down_io env)
                           then [ConnClose] else [])
            /\ forallb down_event body = true
            /\ count is_conn_close body = 0.
Proof.
  split; [apply tcpHandler_never_closes_conn|].
  intros dtr o Hs. apply spawned_is_downstream in Hs.
  destruct (downstream_shape (down_io env)) as (body & Hb & Hev & Ho).
  rewrite <- Hs in Hb, Ho. simpl in Hb, Ho. split; [exact Ho|].
  exists body. rewrite Hb, Ho.
  repeat split; [|exact Hev|].
  + destruct (existsb down_breaks (down_io env)); reflexivity.
  + apply (count_none _ down_event _ Hev). intros []; simpl; congruence.
Qed.

Lemma tcp_downstream_closes_socket_last_witness :
  spawned (tcpHandler example_tcp) = Some (downstream (down_io example_tcp))
  /\ snd (downstream (down_io example_tcp)) = Returned.
Proof.
  assert (Hs : spawned (tcpHandler example_tcp)
               = Some (fst (downstream (down_io example_tcp)),
                       snd (downstream (down_io example_tcp))))
    by reflexivity.
  split; [reflexivity|].
  destruct (tcp_downstream_closes_socket_last example_tcp) as [_ H].
  destruct (H _ _ Hs) as [Ho _]. rewrite Ho. reflexivity.
Defined.

Ltac explicit_body :=
  match goal with
  | |- exists body, ?l = _ =>
      first [ exists (removelast (removelast l)); reflexivity
            | exists (removelast l); reflexivity
            | exists l; reflexivity ]
  end.

(** X3: whenever [tcpHandler] is left, the send side of the stream is
    half-closed once if the stream was opened and not at all otherwise,
    the session context is canceled once if the gRPC client was obtained,
    and these are the last calls of the session, in this order; while the
    session is parked in its loop neither has happened. *)
Theorem tcp_stream_released_once (env : tcp_env) :
  let r := tcpHandler env in
  let back := match main_outcome r with Blocked => false | _ => true end in
  count is_close_send (main_trace r)
  = (if stream_opened env && back then 1 else 0)
  /\ count is_cancel (main_trace r)
     = (if client_acquired env && back then 1 else 0)
  /\ exists body,
       main_trace r
       = body
           ++ (if stream_opened env && back
               then [StreamCloseSend (close_send_err env)] else [])
           ++ (if client_acquired env && back then [CtxCancel] else []).
Proof.
  intros r back. subst r back.
  destruct (established_dec env) as [He|Hn].
  - destruct (established_run env He) as (addr & Ha & ->).
    destruct He as (_ & H2 & H3 & H4 & H5).
    unfold stream_opened, client_acquired. rewrite Ha, H2, H3, H4.
    cbn [main_trace main_outcome andb].
    set (o := snd (upstream (up_io env) (pooled env))).
    change (LeakyGet ?n :: ?l) with ([LeakyGet n] ++ l).
    rewrite !count_app.
    rewrite !(count_none _ up_event _ (upstream_events _ _))
      by (intros []; simpl; congruence).
    destruct (tcp_debug_is_debug "tcp estab" env (Addr_String addr))
      as (f & args & Hd1).
    destruct (tcp_debug_is_debug "tcp close" env (Addr_String addr))
      as (f' & args' & Hd2).
    unfold tcp_prelude, tcp_cleanup. rewrite Hd1, Hd2.
    repeat split; try (destruct o; reflexivity).
    exists ([GetReqAddr (inl addr); ConnWrite connect_reply None;
             GRPCClient None; Pipeline None;
             StreamSend (bytes_of_string (Addr_String addr)) None;
             Debugf f args; GoSpawn]
              ++ [LeakyGet (length (pooled env))]
              ++ fst (upstream (up_io env) (pooled env))
              ++ match o with
                 | Blocked => []
                 | _ => [LeakyPut (length (pooled env)); Debugf f' args']
                 end).
    destruct o; simpl; rewrite <- ?app_assoc; reflexivity.
  - unfold stream_opened, client_acquired, tcpHandler.
    destruct (req_addr env) as [addr|e0] eqn:H1;
      [|simpl; repeat split; explicit_body].
    destruct (reply_err env) eqn:H2; [simpl; repeat split; explicit_body|].
    destruct (client_err env) eqn:H3; [simpl; repeat split; explicit_body|].
    destruct (pipeline_err env) eqn:H4; [simpl; repeat split; explicit_body|].
    destruct (first_send_err env) eqn:H5;
      [simpl; repeat split; explicit_body|].
    exfalso. apply Hn. unfold established. eauto 10.
Qed.

(** X4: a session that does not get as far as the copy loop returns, starts
    no goroutine, reads nothing from the client and takes no buffer; it
    prints one error line, except when it is the write of the SOCKS5 reply
    that failed: that failure is silent. *)
Theorem tcp_setup_failure_is_quiet (env : tcp_env) :
  ~ established env ->
  let r := tcpHandler env in
  main_outcome r = Returned /\ spawned r = None
  /\ conn_reads (main_trace r) = [] /\ leaky_gets (main_trace r) = []
  /\ length (error_logs (main_trace r))
     = match req_addr env, reply_err env with
       | inl _, Some _ => 0
       | _, _ => 1
       end.
Proof.
  intros Hn r. subst r. unfold tcpHandler.
  destruct (req_addr env) as [addr|e0] eqn:H1; [|repeat split].
  destruct (reply_err env) eqn:H2; [repeat split|].
  destruct (client_err env) eqn:H3; [repeat split|].
  destruct (pipeline_err env) eqn:H4; [repeat split|].
  destruct (first_send_err env) eqn:H5; [repeat split|].
  exfalso. apply Hn. unfold established. eauto 10.
Qed.

Lemma example_tcp_no_stream_fails : ~ established example_tcp_no_stream.
Proof. intros (_ & _ & _ & H & _). discriminate. Qed.

Lemma tcp_setup_failure_is_quiet_witness :
  ~ established example_tcp_no_stream
  /\ length (error_logs (main_trace (tcpHandler example_tcp_no_stream))) = 1.
Proof.
  split; [exact example_tcp_no_stream_fails|].
  destruct (tcp_setup_failure_is_quiet example_tcp_no_stream
              example_tcp_no_stream_fails) as (_ & _ & _ & _ & H).
  rewrite H. reflexivity.
Defined.

(** ** The dispatcher *)




(** X2: a connection whose handshake fails, or whose command is neither
    CONNECT nor UDP ASSOCIATE, gets one error line and is closed: nothing
    is written to the client, no handler runs, no goroutine is started. *)
Theorem handleConnection_refuses_other_commands (c : conn_env) :
  handshake c <> inl CmdConnect -> handshake c <> inl CmdUDPAssociate ->
  let r := handleConnection c in
  (exists f a, main_trace r = [Errorf f a; ConnClose])
  /\ conn_writes (main_trace r) = []
  /\ main_outcome r = Returned /\ spawned r = None.
Proof.
  intros H1 H3 r. subst r. unfold handleConnection.
  destruct (handshake c) as [cmd|e].
  - destruct (Byte.eqb cmd CmdConnect) eqn:E1.
    { apply Byte.byte_dec_bl in E1. congruence. }
    destruct (Byte.eqb cmd CmdUDPAssociate) eqn:E3.
    { apply Byte.byte_dec_bl in E3. congruence. }
    split; [eexists; eexists; reflexivity|repeat split].
  - split; [eexists; eexists; reflexivity|repeat split].
Qed.

Lemma handleConnection_refuses_other_commands_witness :
  handshake example_bind <> inl CmdConnect
  /\ handshake example_bind <> inl CmdUDPAssociate
  /\ conn_writes (main_trace (handleConnection example_bind)) = [].
Proof.
  assert (H1 : handshake example_bind <> inl CmdConnect) by discriminate.
  assert (H3 : handshake example_bind <> inl CmdUDPAssociate)
    by discriminate.
  split; [exact H1|]. split; [exact H3|].
  exact (proj1 (proj2 (handleConnection_refuses_other_commands
                         example_bind H1 H3))).
Defined.

(** ** The UDP relay, further *)

Lemma uint16_int16_mod (p : Z) : uint16 (int16 p) = (p mod 65536)%Z.
Proof.
  unfold uint16, int16. rewrite Zminus_mod_idemp_l. f_equal. lia.
Qed.

Lemma associate_reply_some (p : Z) :
  exists hi lo,
    associate_reply p = Some [x05; x00; x00; x01; x00; x00; x00; x00; hi; lo].
Proof.
  unfold associate_reply, binary_Write_int16, PutUint16. simpl. eauto.
Qed.

(** X14: whatever integer the bound port is, the reply to UDP ASSOCIATE is
    built without a panic, is ten bytes long, and its last two bytes are
    the port modulo 65536, high byte first. *)
Theorem associate_reply_any_port (p : Z) :
  exists hi lo,
    associate_reply p = Some [x05; x00; x00; x01; x00; x00; x00; x00; hi; lo]
    /\ (256 * Z_of_byte hi + Z_of_byte lo = p mod 65536)%Z.
Proof.
  exists (byte_of_Z ((p mod 65536) / 256)), (byte_of_Z ((p mod 65536) mod 256)).
  assert (Hr : (0 <= p mod 65536 < 65536)%Z) by (apply Z.mod_pos_bound; lia).
  split.
  - unfold associate_reply, binary_Write_int16.
    rewrite uint16_int16_mod, PutUint16_big_endian. reflexivity.
  - rewrite !Z_of_byte_of_Z, Z.mod_mod by lia.
    rewrite (Z.mod_small (p mod 65536 / 256)).
    + pose proof (Z.div_mod (p mod 65536) 256). lia.
    + split; [apply Z.div_pos; lia|apply Z.div_lt_upper_bound; lia].
Qed.

Lemma task_step_trace (k : nat) (st : udp_state) :
  exists evs, trace (task_step k st) = trace st ++ evs
              /\ forallb task_event evs = true
              /\ BNDAddr (task_step k st) = BNDAddr st.
Proof.
  assert (Hnil : exists evs, trace st = trace st ++ evs
                             /\ forallb task_event evs = true
                             /\ BNDAddr st = BNDAddr st)
    by (exists []; repeat split; now rewrite app_nil_r).
  unfold task_step. destruct (dead st); [exact Hnil|].
  destruct (nth_error (tasks st) k) as [t|]; [|exact Hnil].
  unfold panic. destruct (t_pc t); try exact Hnil.
  - destruct (slice _ _ _); [|destruct (main_at st)]; exact Hnil.
  - cbn. eexists; repeat split.
  - destruct (hd None (send_errs st)); cbn; eexists; repeat split.
  - destruct (slice _ _ _); [|destruct (main_at st); exact Hnil].
    destruct (t_turn t =? turn st); destruct (hd None (send_errs st));
      cbn; eexists; repeat split.
Qed.

Lemma last_src_app (tr evs : list event) :
  forall cur, last_src cur (tr ++ evs) = last_src (last_src cur tr) evs.
Proof.
  induction tr as [|ev tr IH]; intros cur; [reflexivity|].
  destruct ev; simpl; apply IH.
Qed.

Lemma last_src_task_events (evs : list event) :
  forallb task_event evs = true -> forall cur, last_src cur evs = cur.
Proof.
  induction evs as [|ev evs IH]; intros H cur; [reflexivity|].
  simpl in H. apply andb_true_iff in H. destruct H as [Hev H].
  destruct ev; try discriminate; simpl; now apply IH.
Qed.

Lemma last_src_step (st : udp_state) (who : nat) :
  BNDAddr st = last_src "" (trace st) ->
  BNDAddr (step st who) = last_src "" (trace (step st who)).
Proof.
  intros Hinv. destruct who as [|k]; simpl.
  - unfold main_step. destruct (main_at st); [| |exact Hinv|exact Hinv].
    + destruct (read_from _ _ _) as [[[[t data] addr] err] rest].
      cbn [BNDAddr trace]. rewrite last_src_app, <- Hinv. simpl.
      unfold nonempty. destruct (0 <? length data); reflexivity.
    + destruct (err_cell st); [|exact Hinv]. cbn.
      rewrite last_src_app, <- Hinv. unfold udp_defers.
      destruct (close_err st); reflexivity.
  - destruct (task_step_trace k st) as (evs & -> & Hev & ->).
    rewrite last_src_app, <- Hinv. symmetry.
    now apply last_src_task_events.
Qed.

Lemma BNDAddr_is_last_src (env : udp_env) (st0 : udp_state)
    (sched : list nat) :
  udp_setup env = inr st0 ->
  BNDAddr (exec sched st0) = last_src "" (udpHandler env sched).
Proof.
  intros Hs. unfold udpHandler. rewrite Hs.
  assert (H0 : BNDAddr st0 = last_src "" (trace st0)).
  { revert Hs. unfold udp_setup.
    destruct (u_req_addr env); [|discriminate].
    destruct (u_listen_err env); [discriminate|].
    destruct (associate_reply (u_port env)); [|discriminate].
    destruct (u_reply_err env); [discriminate|].
    destruct (u_client_err env); [discriminate|].
    destruct (u_pipeline_err env); [discriminate|].
    intros H. injection H as <-. reflexivity. }
  clear Hs. revert st0 H0.
  induction sched as [|w sched IH]; intros st0 H0; [exact H0|].
  simpl. apply IH. now apply last_src_step.
Qed.

(** X15: at every moment of an association [netInfo.BNDAddr], the address
    replies are written to, is the sender of the last non-empty datagram
    read so far, whoever that was; empty datagrams and the per-datagram
    goroutines leave it alone. *)
Theorem udp_reply_address_is_last_sender (env : udp_env) (st0 : udp_state)
    (sched : list nat) :
  udp_setup env = inr st0 ->
  BNDAddr (exec sched st0) = last_src "" (udpHandler env sched)
  /\ (forall k, BNDAddr (task_step k (exec sched st0))
                = BNDAddr (exec sched st0))
  /\ (main_at (exec sched st0) = MainRead ->
      BNDAddr (main_step (exec sched st0))
      = let '(_, data, addr, _, _) :=
          read_from (deadline (exec sched st0))
            (length (buff (exec sched st0))) (pending (exec sched st0)) in
        if nonempty data then addr else BNDAddr (exec sched st0)).
Proof.
  intros Hs. split; [now apply BNDAddr_is_last_src|split].
  - intros k. now destruct (task_step_trace k (exec sched st0)) as (_ & _ & _ & H).
  - intros Hm. unfold main_step. rewrite Hm.
    destruct (read_from _ _ _) as [[[[t data] addr] err] rest]. reflexivity.
Qed.

Lemma udp_reply_address_is_last_sender_witness :
  udp_setup example_udp = inr (entry_state example_udp)
  /\ BNDAddr (exec (serial 0 2) (entry_state example_udp)) = "127.0.0.1:5353".
Proof.
  split; [reflexivity|].
  rewrite (proj1 (udp_reply_address_is_last_sender example_udp
                    (entry_state example_udp) (serial 0 2) eq_refl)).
  vm_compute. reflexivity.
Defined.





Lemma example_dgrams_well_formed :
  Forall (well_formed 64 (0 + Second * 600)%Z)
    [example_dgram 1 X1; example_dgram 2 Y2].
Proof.
  repeat (apply Forall_cons || apply Forall_nil);
    (split; [reflexivity|]); (split; [reflexivity|]);
    (split; [apply Nat.leb_le; reflexivity|reflexivity]).
Qed.

Lemma udp_serial_frames_witness :
  udp_setup example_udp = inr (entry_state example_udp)
  /\ u_reads example_udp = map to_read [example_dgram 1 X1; example_dgram 2 Y2]
  /\ Forall (eq None) (u_send_errs example_udp)
  /\ stream_sends (udpHandler example_udp (serial 0 2))
     = [bytes_of_string "example.com:53"; X1; Y2].
Proof.
  split; [reflexivity|]. split; [reflexivity|]. split; [constructor|].
  exact (udp_serial_frames example_udp (entry_state example_udp)
           (example_dgram 1 X1) [example_dgram 2 Y2]
           eq_refl eq_refl example_dgrams_well_formed (Forall_nil _)).
Defined.

Lemma stream_accepted_app (a b : list event) :
  stream_accepted (a ++ b) = stream_accepted a ++ stream_accepted b.
Proof. apply flat_map_app. Qed.

Lemma serial_accepted (ds : list dgram) :
  forall st rest,
  main_at st = MainRead -> pending st = map to_read ds ++ rest ->
  Forall (well_formed (length (buff st)) (deadline st)) ds ->
  Forall (eq None) (send_errs st) -> first st = true ->
  stream_accepted (trace (exec (serial (length (tasks st)) (length ds)) st))
  = stream_accepted (trace st) ++ map dg_data ds.
Proof.
  induction ds as [|d ds IH]; intros st rest Hm Hp Hwf Hse Hf.
  - simpl. now rewrite app_nil_r.
  - pose proof (Forall_inv Hwf) as Hd.
    pose proof (Forall_inv_tail Hwf) as Hds.
    cbn [length serial map app] in *.
    change (0 :: 0 :: repeat (S (length (tasks st))) 7
              ++ serial (S (length (tasks st))) (length ds))
      with ((0 :: 0 :: repeat (S (length (tasks st))) 7)
              ++ serial (S (length (tasks st))) (length ds)).
    rewrite exec_app, (serial_round_state st d _ Hm Hp Hd Hse).
    match goal with |- context [exec _ ?s] => set (st1 := s) end.
    assert (Hlen : length (tasks st1) = S (length (tasks st)))
      by (subst st1; cbn [tasks]; rewrite length_app; simpl; lia).
    rewrite <- Hlen.
    rewrite (IH st1 rest); subst st1; cbn [main_at pending buff deadline
      send_errs trace first]; try reflexivity.
    + rewrite !stream_accepted_app, Hf. simpl.
      rewrite <- app_assoc. reflexivity.
    + now rewrite fill_length.
    + rewrite Hf. now destruct (hd_all_none _ Hse).
Qed.

(** One datagram under the serial schedule when the stream refuses the
    destination frame: the goroutine logs and ends at line 259. *)
Lemma serial_round_refused (st : udp_state) (d : dgram)
    (rest : list udp_read) (e : error) (se : list (option error)) :
  main_at st = MainRead -> first st = false ->
  pending st = to_read d :: rest ->
  well_formed (length (buff st)) (deadline st) d ->
  send_errs st = Some e :: se ->
  exec (0 :: 0 :: repeat (S (length (tasks st))) 7) st
  = UdpState (fill (dg_pkt d) (buff st)) true (Addr_String (dg_addr d))
      (dg_src d) None (S (turn st)) MainRead
      (tasks st ++ [Task (length (dg_pkt d)) (length (dg_addr d))
                      (S (turn st)) Finished])
      rest se (deadline st) (close_err st)
      (trace st
         ++ [ReadFrom (dg_at d) (dg_pkt d) (dg_src d) None; GoSpawn;
             Debugf "udp %q --> %q" [dg_src d; Addr_String (dg_addr d)];
             StreamSend (bytes_of_string (Addr_String (dg_addr d))) (Some e);
             Errorf "first frame send err: %s" (Error e)]).
Proof.
  destruct st as [b f DS BN e0 tn m ts pd se0 dl ce tr]. simp_state.
  intros -> -> -> (Hh & Hsplit & Hle & Hat) ->.
  destruct (views_of_dgram d b Hh Hle) as (V1 & V2 & V3).
  assert (Hn : (0 <? length (dg_pkt d)) = true).
  { apply Nat.ltb_lt. unfold dg_pkt. rewrite length_app. lia. }
  rewrite exec_cons. unfold step at 1, main_step. simp_state.
  cbn [read_from to_read at_time pkt src_addr rf_err].
  apply Z.ltb_lt in Hat. rewrite Hat.
  rewrite (firstn_all2 (dg_pkt d) Hle), Hn.
  rewrite exec_cons. unfold step at 1, main_step. simp_state.
  cbn [repeat].
  task_turn. rewrite V1. settle. rewrite Hsplit.
  task_turn. rewrite V2.
  task_turn. task_turn. task_turn. task_turn. cbn [hd tl]. settle.
  task_turn.
  unfold exec. cbn [fold_left]. rewrite <- !app_assoc. reflexivity.
Qed.

(** X10: when the stream refuses the destination frame, the goroutine of
    the first datagram gives up before sending its data, but [first] stays
    set: under the serial schedule the later datagrams are forwarded as
    data only, the destination is never sent again and never accepted. *)
Theorem udp_refused_destination_is_not_resent (env : udp_env)
    (st0 : udp_state) (d : dgram) (ds : list dgram) (e : error)
    (se : list (option error)) :
  udp_setup env = inr st0 ->
  u_reads env = map to_read (d :: ds) ->
  Forall (well_formed (UDPMaxSize env) (u_now env + Second * 600)%Z)
    (d :: ds) ->
  u_send_errs env = Some e :: se -> Forall (eq None) se ->
  stream_sends (udpHandler env (serial 0 (S (length ds))))
  = bytes_of_string (Addr_String (dg_addr d)) :: map dg_data ds
  /\ stream_accepted (udpHandler env (serial 0 (S (length ds))))
     = map dg_data ds.
Proof.
  intros Hs Hr Hwf Hse Hnone.
  destruct (udp_setup_state env st0 Hs) as (Hm & Hp & Hb & Hf & Hse0 & Ht).
  destruct (udp_setup_entry env st0 Hs) as (Hd & _ & Hts & _).
  pose proof (Forall_inv Hwf) as Hwd.
  pose proof (Forall_inv_tail Hwf) as Hwds.
  assert (Hacc : stream_accepted (trace st0) = []).
  { revert Hs. unfold udp_setup.
    destruct (u_req_addr env); [|discriminate].
    destruct (u_listen_err env); [discriminate|].
    destruct (associate_reply (u_port env)); [|discriminate].
    destruct (u_reply_err env); [discriminate|].
    destruct (u_client_err env); [discriminate|].
    destruct (u_pipeline_err env); [discriminate|].
    intros H. injection H as <-. reflexivity. }
  unfold udpHandler. rewrite Hs. cbn [serial].
  change (0 :: 0 :: repeat 1 7 ++ serial 1 (length ds))
    with ((0 :: 0 :: repeat 1 7) ++ serial 1 (length ds)).
  rewrite exec_app.
  replace (0 :: 0 :: repeat 1 7)
    with (0 :: 0 :: repeat (S (length (tasks st0))) 7) by (now rewrite Hts).
  rewrite (serial_round_refused st0 d (map to_read ds) e se Hm Hf).
  2:{ rewrite Hp, Hr. reflexivity. }
  2:{ now rewrite Hb, Hd. }
  2:{ now rewrite Hse0. }
  match goal with |- context [exec _ ?s] => set (st1 := s) end.
  assert (Hlen : length (tasks st1) = 1)
    by (subst st1; cbn [tasks]; rewrite Hts; reflexivity).
  rewrite <- Hlen. split.
  - rewrite (serial_sends ds st1 []); subst st1;
      cbn [main_at pending buff deadline send_errs trace first];
      try reflexivity; try assumption.
    + rewrite stream_sends_app, Ht. simpl. now destruct ds.
    + now rewrite app_nil_r.
    + now rewrite fill_length, Hb, Hd.
  - rewrite (serial_accepted ds st1 []); subst st1;
      cbn [main_at pending buff deadline send_errs trace first];
      try reflexivity; try assumption.
    + rewrite stream_accepted_app, Hacc. reflexivity.
    + now rewrite app_nil_r.
    + now rewrite fill_length, Hb, Hd.
Qed.

Lemma udp_refused_destination_is_not_resent_witness :
  udp_setup example_udp_no_destination
  = inr (entry_state example_udp_no_destination)
  /\ u_reads example_udp_no_destination
     = map to_read [example_dgram 1 X1; example_dgram 2 Y2]
  /\ stream_accepted (udpHandler example_udp_no_destination (serial 0 2))
     = [Y2].
Proof.
  split; [reflexivity|]. split; [reflexivity|].
  exact (proj2 (udp_refused_destination_is_not_resent
                  example_udp_no_destination
                  (entry_state example_udp_no_destination)
                  (example_dgram 1 X1) [example_dgram 2 Y2]
                  (errorString "transport is closing") []
                  eq_refl eq_refl example_dgrams_well_formed eq_refl
                  (Forall_nil _))).
Defined.

Lemma crashed_stays (m : nat) (b : bytes) (f : bool) (DS BN : string)
    (e : option error) (tn : nat) (mp : main_pc) (ts : list task)
    (pd : list udp_read) (se : list (option error)) (dl : Z)
    (ce : option error) (tr : list event) (n dn t : nat) :
  exec (repeat (S (length ts)) m)
    (UdpState b f DS BN e tn mp (ts ++ [Task n dn t Crashed]) pd se dl ce tr)
  = UdpState b f DS BN e tn mp (ts ++ [Task n dn t Crashed]) pd se dl ce tr.
Proof.
  induction m as [|m IH]; [reflexivity|].
  cbn [repeat]. rewrite exec_cons. unfold step at 1, task_step.
  destruct (dead _); [exact IH|]. simp_state.
  rewrite nth_error_app_len. simp_state. exact IH.
Qed.

(** X11: a client datagram of one or two bytes makes its goroutine panic
    on the slice bounds of line 248 ([buff[3:n]] with [n < 3]): it never
    reaches a [Send], although the source of the datagram has already
    been recorded as the address for replies. *)
Theorem udp_short_datagram_panics (st : udp_state) (r : udp_read)
    (rest : list udp_read) (m : nat) :
  main_at st = MainRead -> pending st = r :: rest ->
  (at_time r < deadline st)%Z ->
  0 < length (pkt r) < 3 -> length (pkt r) <= length (buff st) ->
  let st' := exec (0 :: repeat (S (length (tasks st))) (S m)) st in
  nth_error (tasks st') (length (tasks st))
  = Some (Task (length (pkt r)) 0 (S (turn st)) Crashed)
  /\ stream_sends (trace st') = stream_sends (trace st)
  /\ BNDAddr st' = src_addr r.
Proof.
  destruct st as [b f DS BN e tn mp ts pd se dl ce tr]. simp_state.
  intros -> -> Hat Hn Hle.
  assert (Hpos : (0 <? length (pkt r)) = true) by (apply Nat.ltb_lt; lia).
  assert (Hs : slice (fill (pkt r) b) 3 (length (pkt r)) = None).
  { unfold slice.
    replace (3 <=? length (pkt r)) with false
      by (symmetry; apply Nat.leb_gt; lia).
    reflexivity. }
  assert (Heq :
    exec (0 :: repeat (S (length ts)) (S m))
      (UdpState b f DS BN e tn MainRead ts (r :: rest) se dl ce tr)
    = UdpState (fill (pkt r) b) f DS (src_addr r) (rf_err r) (S tn) MainKilled
        (ts ++ [Task (length (pkt r)) 0 (S tn) Crashed]) rest se dl ce
        (tr ++ [ReadFrom (at_time r) (pkt r) (src_addr r) (rf_err r);
                GoSpawn])).
  { rewrite exec_cons. unfold step at 1, main_step. simp_state.
    cbn [read_from]. apply Z.ltb_lt in Hat. rewrite Hat.
    rewrite (firstn_all2 (pkt r) Hle), Hpos.
    cbn [repeat]. task_turn. rewrite Hs. settle. apply crashed_stays. }
  rewrite Heq. simp_state. rewrite nth_error_app_len.
  repeat split. rewrite stream_sends_app. simpl. now rewrite app_nil_r.
Qed.

Lemma udp_short_datagram_panics_witness :
  main_at (entry_state example_udp_short) = MainRead
  /\ (0 < 2 < 3)
  /\ stream_sends
       (trace (exec [0; 1; 1] (entry_state example_udp_short))) = [].
Proof.
  split; [reflexivity|]. split; [lia|].
  assert (Hlt : (at_time (UdpRead (1 * Second) "127.0.0.1:6000" [x00; x00]
                            None)
                 < deadline (entry_state example_udp_short))%Z)
    by reflexivity.
  assert (Hn : 0 < length [x00; x00] < 3) by (simpl; lia).
  assert (Hle : length [x00; x00]
                <= length (buff (entry_state example_udp_short)))
    by (apply Nat.leb_le; reflexivity).
  destruct (udp_short_datagram_panics (entry_state example_udp_short)
              (UdpRead (1 * Second) "127.0.0.1:6000" [x00; x00] None) [] 1
              eq_refl eq_refl Hlt Hn Hle) as (_ & H & _).
  exact H.
Defined.

(** The state after a turn of the loop whose goroutine, finding [first]
    set, has its data frame refused before the loop tests [err]. *)
Lemma refused_before_check (st : udp_state) (d : dgram)
    (rest : list udp_read) (e : error) (se : list (option error)) :
  main_at st = MainRead -> first st = true ->
  pending st = to_read d :: rest ->
  well_formed (length (buff st)) (deadline st) d ->
  send_errs st = Some e :: se ->
  exec (0 :: repeat (S (length (tasks st))) 5) st
  = UdpState (fill (dg_pkt d) (buff st)) true (Addr_String (dg_addr d))
      (dg_src d) (Some e) (S (turn st)) MainCheck
      (tasks st ++ [Task (length (dg_pkt d)) (length (dg_addr d))
                      (S (turn st)) Finished])
      rest se (deadline st) (close_err st)
      (trace st
         ++ [ReadFrom (dg_at d) (dg_pkt d) (dg_src d) None; GoSpawn;
             Debugf "udp %q --> %q" [dg_src d; Addr_String (dg_addr d)];
             StreamSend (dg_data d) (Some e);
             Errorf "stream send err: %s" (Error e)]).
Proof.
  destruct st as [b f DS BN e0 tn m ts pd se0 dl ce tr]. simp_state.
  intros -> -> -> (Hh & Hsplit & Hle & Hat) ->.
  destruct (views_of_dgram d b Hh Hle) as (V1 & V2 & V3).
  assert (Hn : (0 <? length (dg_pkt d)) = true).
  { apply Nat.ltb_lt. unfold dg_pkt. rewrite length_app. lia. }
  rewrite exec_cons. unfold step at 1, main_step. simp_state.
  cbn [read_from to_read at_time pkt src_addr rf_err].
  apply Z.ltb_lt in Hat. rewrite Hat.
  rewrite (firstn_all2 (dg_pkt d) Hle), Hn.
  cbn [repeat].
  task_turn. rewrite V1. settle. rewrite Hsplit.
  task_turn. rewrite V2.
  task_turn. task_turn.
  task_turn. rewrite V3, Nat.eqb_refl. cbn [hd tl]. settle.
  unfold exec. cbn [fold_left]. rewrite <- !app_assoc. reflexivity.
Qed.

(** The same turn when the loop tests [err] before the goroutine runs. *)
Lemma refused_after_check (st : udp_state) (d : dgram)
    (rest : list udp_read) (e : error) (se : list (option error)) :
  main_at st = MainRead -> first st = true ->
  pending st = to_read d :: rest ->
  well_formed (length (buff st)) (deadline st) d ->
  send_errs st = Some e :: se ->
  exec (0 :: 0 :: repeat (S (length (tasks st))) 5) st
  = UdpState (fill (dg_pkt d) (buff st)) true (Addr_String (dg_addr d))
      (dg_src d) (Some e) (S (turn st)) MainRead
      (tasks st ++ [Task (length (dg_pkt d)) (length (dg_addr d))
                      (S (turn st)) Finished])
      rest se (deadline st) (close_err st)
      (trace st
         ++ [ReadFrom (dg_at d) (dg_pkt d) (dg_src d) None; GoSpawn;
             Debugf "udp %q --> %q" [dg_src d; Addr_String (dg_addr d)];
             StreamSend (dg_data d) (Some e);
             Errorf "stream send err: %s" (Error e)]).
Proof.
  destruct st as [b f DS BN e0 tn m ts pd se0 dl ce tr]. simp_state.
  intros -> -> -> (Hh & Hsplit & Hle & Hat) ->.
  destruct (views_of_dgram d b Hh Hle) as (V1 & V2 & V3).
  assert (Hn : (0 <? length (dg_pkt d)) = true).
  { apply Nat.ltb_lt. unfold dg_pkt. rewrite length_app. lia. }
  rewrite exec_cons. unfold step at 1, main_step. simp_state.
  cbn [read_from to_read at_time pkt src_addr rf_err].
  apply Z.ltb_lt in Hat. rewrite Hat.
  rewrite (firstn_all2 (dg_pkt d) Hle), Hn.
  rewrite exec_cons. unfold step at 1, main_step. simp_state.
  cbn [repeat].
  task_turn. rewrite V1. settle. rewrite Hsplit.
  task_turn. rewrite V2.
  task_turn. task_turn.
  task_turn. rewrite V3, Nat.eqb_refl. cbn [hd tl]. settle.
  unfold exec. cbn [fold_left]. rewrite <- !app_assoc. reflexivity.
Qed.

(** X12: the goroutine of a datagram assigns the result of its [Send] to
    the [err] of the turn of the loop that started it, which the loop
    tests at line 274.  A refused data frame therefore ends the
    association when the goroutine gets there before the test, and does
    not when the test comes first: the loop goes on to its next read. *)
Theorem udp_refused_data_ends_loop_only_before_test (st : udp_state)
    (d : dgram) (rest : list udp_read) (e : error)
    (se : list (option error)) :
  main_at st = MainRead -> first st = true ->
  pending st = to_read d :: rest ->
  well_formed (length (buff st)) (deadline st) d ->
  send_errs st = Some e :: se ->
  let k := S (length (tasks st)) in
  let early := exec (0 :: repeat k 5 ++ [0]) st in
  let late := exec (0 :: 0 :: repeat k 5) st in
  main_at early = MainReturned
  /\ count is_udp_close (trace early) = S (count is_udp_close (trace st))
  /\ stream_rejected (trace early) = stream_rejected (trace st) ++ [dg_data d]
  /\ main_at late = MainRead /\ pending late = rest
  /\ count is_udp_close (trace late) = count is_udp_close (trace st)
  /\ stream_rejected (trace late) = stream_rejected (trace st) ++ [dg_data d].
Proof.
  intros Hm Hf Hp Hwf Hse k early late. subst k early late.
  change (0 :: repeat (S (length (tasks st))) 5 ++ [0])
    with ((0 :: repeat (S (length (tasks st))) 5) ++ [0]).
  rewrite exec_app.
  rewrite (refused_before_check st d rest e se Hm Hf Hp Hwf Hse).
  rewrite (refused_after_check st d rest e se Hm Hf Hp Hwf Hse).
  unfold exec. cbn [fold_left]. unfold step, main_step. simp_state.
  unfold stream_rejected. rewrite !count_app, !flat_map_app.
  unfold udp_defers.
  unfold count.
  destruct (close_err st); simpl; rewrite ?app_nil_r;
    repeat split; lia.
Qed.

Lemma udp_refused_data_ends_loop_only_before_test_witness :
  let st := exec (serial 0 1) (entry_state example_udp_refused) in
  main_at st = MainRead /\ first st = true
  /\ send_errs st = [Some (errorString "transport is closing")]
  /\ main_at (exec [0; 2; 2; 2; 2; 2; 0] st) = MainReturned
  /\ main_at (exec [0; 0; 2; 2; 2; 2; 2] st) = MainRead.
Proof.
  intros st.
  assert (Hm : main_at st = MainRead) by reflexivity.
  assert (Hf : first st = true) by reflexivity.
  assert (Hp : pending st = to_read (example_dgram 2 Y2) :: [])
    by reflexivity.
  assert (Hse : send_errs st = [Some (errorString "transport is closing")])
    by reflexivity.
  assert (Hwf : well_formed (length (buff st)) (deadline st)
                  (example_dgram 2 Y2)).
  { split; [reflexivity|]. split; [reflexivity|].
    split; [apply Nat.leb_le; reflexivity|reflexivity]. }
  split; [exact Hm|]. split; [exact Hf|]. split; [exact Hse|].
  destruct (udp_refused_data_ends_loop_only_before_test st
              (example_dgram 2 Y2) [] _ [] Hm Hf Hp Hwf Hse)
    as (H1 & _ & _ & H2 & _).
  split; [exact H1|exact H2].
Defined.

(** ** The downstream goroutine of the UDP relay *)

Lemma down_step_relay (a : assoc) : relay (down_step a) = relay a.
Proof.
  unfold down_step. destruct (down_at a) as [|p [e|]| | |]; try reflexivity.
  - destruct (replies_due a) as [|[e|p w] rest]; reflexivity.
  - destruct (String.eqb _ _); reflexivity.
Qed.

Lemma assoc_exec_relay (sched : list actor) :
  forall a, relay (assoc_exec sched a) = exec (upward_steps sched) (relay a).
Proof.
  induction sched as [|x sched IH]; intros a; [reflexivity|].
  simpl. rewrite IH. destruct x as [w|]; simpl; [reflexivity|].
  destruct (dead (relay a)); [reflexivity|]. now rewrite down_step_relay.
Qed.





(** X17: a reply is written to the sender of the last non-empty datagram
    the loop has read at the moment of the write, whoever sent the datagram
    the reply answers; before any datagram was read the address is nil. *)
Theorem udp_reply_goes_to_last_sender (env : udp_env) (st0 : udp_state)
    (io : list udp_down_turn) (sched : list actor) (p : bytes)
    (w : option error) :
  udp_setup env = inr st0 ->
  let a := assoc_exec sched (assoc_entry st0 io) in
  down_at a = DownAtWrite p w ->
  exists rest,
    down_trace (down_step a)
    = down_trace a
        ++ WriteTo p (last_src "" (udpHandler env (upward_steps sched))) w
        :: rest.
Proof.
  intros Hs a Hat.
  assert (Hb : BNDAddr (relay a)
               = last_src "" (udpHandler env (upward_steps sched))).
  { subst a. rewrite assoc_exec_relay. cbn [relay assoc_entry].
    now apply BNDAddr_is_last_src. }
  unfold down_step. rewrite Hat, Hb.
  destruct w; cbn [down_trace]; eexists; reflexivity.
Qed.

Lemma udp_reply_goes_to_last_sender_witness :
  let a := assoc_exec [Upward 0; Upward 0; Downward]
             (assoc_entry (entry_state example_udp) example_replies) in
  udp_setup example_udp = inr (entry_state example_udp)
  /\ down_at a = DownAtWrite hello None
  /\ down_trace (down_step a)
     = [DownRecv (inl hello); WriteTo hello "127.0.0.1:5353" None].
Proof.
  intros a.
  assert (Hat : down_at a = DownAtWrite hello None) by reflexivity.
  split; [reflexivity|]. split; [exact Hat|].
  destruct (udp_reply_goes_to_last_sender example_udp
              (entry_state example_udp) example_replies
              [Upward 0; Upward 0; Downward] hello None eq_refl Hat)
    as (rest & H).
  vm_compute. reflexivity.
Defined.

(** X19: a run of [udpHandler] that ends before its loop reads no datagram
    and sends nothing on the stream; it prints one error line, except when
    it is the write of the reply to the client that failed: that failure is
    silent.  The datagram socket, once opened, is closed again. *)
Theorem udp_setup_failure_is_quiet (env : udp_env) (tr : list event)
    (sched : list nat) :
  udp_setup env = inl tr ->
  udpHandler env sched = tr
  /\ stream_sends tr = [] /\ count is_close_send tr = 0
  /\ count is_udp_close tr = (if socket_opened env then 1 else 0)
  /\ length (error_logs tr)
     = match u_req_addr env, u_listen_err env, u_reply_err env with
       | inl _, None, Some _ => 0
       | _, _, _ => 1
       end.
Proof.
  intros Hs. unfold udpHandler. rewrite Hs. split; [reflexivity|].
  revert Hs. unfold udp_setup, socket_opened.
  destruct (u_req_addr env) as [a0|e0];
    [|intros H; injection H as <-; repeat split].
  destruct (u_listen_err env); [intros H; injection H as <-; repeat split|].
  destruct (associate_reply_some (u_port env)) as (hi & lo & ->).
  destruct (u_reply_err env); [intros H; injection H as <-; repeat split|].
  destruct (u_client_err env); [intros H; injection H as <-; repeat split|].
  destruct (u_pipeline_err env); [intros H; injection H as <-; repeat split|].
  discriminate.
Qed.

Lemma udp_setup_failure_is_quiet_witness :
  udp_setup example_udp_no_reply
  = inl (udpHandler example_udp_no_reply [])
  /\ length (error_logs (udpHandler example_udp_no_reply [])) = 0
  /\ count is_udp_close (udpHandler example_udp_no_reply []) = 1.
Proof.
  split; [reflexivity|].
  destruct (udp_setup_failure_is_quiet example_udp_no_reply
              (udpHandler example_udp_no_reply []) [] eq_refl)
    as (_ & _ & _ & Hc & Hl).
  split; [exact Hl|exact Hc].
Defined.
